(** * Self-correcting agent backend: event normalizer, session orchestrator
      and streaming bridge

    A shallow embedding of [backend/azure_client.py] and [backend/main.py].

    - Python values that reach the normalizer are modelled by [value]:
      [None], booleans, integers, strings and objects with named attributes.
    - [process_stream_event] is the normalizer, written branch for branch.
    - [stream_agent_response] is the generator that creates the conversation,
      streams the normalized events and deletes the conversation; it is
      written in a small monad that records yields and remote calls.
    - [event_generator] is modelled as a transition system over the worker
      thread, the queue and the polling loop. *)

From Stdlib Require Import String Ascii List ZArith Bool Lia.
From Stdlib Require Import DecimalString.
Import ListNotations.
Open Scope string_scope.
Open Scope list_scope.

Set Implicit Arguments.
Set Warnings "-register-all".

(* ================================================================= *)
(** ** Python values and exceptions *)

(** An object carries the name of its class (used in the text of an
    [AttributeError] and of a json [TypeError]), the text [str()] gives for
    it, and its instance attributes.  Attribute lookup takes the first
    binding of a name. *)
Inductive value : Type :=
| VNone
| VBool (b : bool)
| VInt (n : Z)
| VStr (s : string)
| VObj (cls : string) (shown : string) (attrs : list (string * value)).

(** An exception has a class and a text; [is_exception] tells whether it is
    an instance of [Exception], which is what [except Exception] catches.
    [KeyboardInterrupt], [SystemExit] and [GeneratorExit] are not: they are
    instances of [BaseException] only. *)
Record exn : Type := mkExnOf {
  exn_class : string;
  exn_message : string;
  is_exception : bool
}.

(** An instance of [Exception]. *)
Definition mkExn (class message : string) : exn := mkExnOf class message true.

(** [str(e)] of an exception. *)
Definition str_exn (e : exn) : string := exn_message e.

Inductive result (A : Type) : Type :=
| Ok (a : A)
| Raise (e : exn).
Arguments Ok {A} a.
Arguments Raise {A} e.

Definition rbind {A B} (m : result A) (f : A -> result B) : result B :=
  match m with
  | Ok a => f a
  | Raise e => Raise e
  end.

Notation "x <- m ;; k" := (rbind m (fun x => k))
  (at level 61, m at next level, right associativity).

Definition newline : string := String "010"%char EmptyString.
Definition dquote : string := String "034"%char EmptyString.

Fixpoint assoc {A} (name : string) (l : list (string * A)) : option A :=
  match l with
  | [] => None
  | (k, v) :: rest => if String.eqb k name then Some v else assoc name rest
  end.

(** The attributes the code asks for ([type], [item], [status], ...) are not
    attributes of [None], [bool], [int] or [str], so only objects have any. *)
Definition lookup_attr (o : value) (name : string) : option value :=
  match o with
  | VObj _ _ attrs => assoc name attrs
  | _ => None
  end.

Definition type_name (o : value) : string :=
  match o with
  | VNone => "NoneType"
  | VBool _ => "bool"
  | VInt _ => "int"
  | VStr _ => "str"
  | VObj cls _ _ => cls
  end.

Definition AttributeError (o : value) (name : string) : exn :=
  mkExn "AttributeError"
        ("'" ++ type_name o ++ "' object has no attribute '" ++ name ++ "'").

(** [o.name] *)
Definition attr (o : value) (name : string) : result value :=
  match lookup_attr o name with
  | Some v => Ok v
  | None => Raise (AttributeError o name)
  end.

(** [getattr(o, name, default)] *)
Definition getattr (o : value) (name : string) (default : value) : value :=
  match lookup_attr o name with
  | Some v => v
  | None => default
  end.

(** [hasattr(o, name)] *)
Definition hasattr (o : value) (name : string) : bool :=
  match lookup_attr o name with
  | Some _ => true
  | None => false
  end.

(** Truth value of [if o:] *)
Definition truthy (o : value) : bool :=
  match o with
  | VNone => false
  | VBool b => b
  | VInt n => negb (Z.eqb n 0)
  | VStr s => negb (String.eqb s "")
  | VObj _ _ _ => true
  end.

Definition str_of_Z (n : Z) : string := NilZero.string_of_int (Z.to_int n).

(** [str(o)] *)
Definition py_str (o : value) : string :=
  match o with
  | VNone => "None"
  | VBool true => "True"
  | VBool false => "False"
  | VInt n => str_of_Z n
  | VStr s => s
  | VObj _ shown _ => shown
  end.

(** [o == s] for a string constant [s]. *)
Definition eq_str (o : value) (s : string) : bool :=
  match o with
  | VStr t => String.eqb t s
  | _ => false
  end.

(* ================================================================= *)
(** ** Outward events *)

(** A value of the [data] dictionary: a Python value passed through, or the
    nested [usage] dictionary. *)
Inductive jvalue : Type :=
| JVal (v : value)
| JDict (d : list (string * value)).

(** The dictionary [{"event": ..., "data": {...}}]; [data] keeps the
    insertion order of the Python dict. *)
Record sse_event : Type := mkSse {
  event : string;
  data : list (string * jvalue)
}.

(** Modelled from the spec: the enumeration [ResponseStreamEventType] is
    imported from [azure.ai.projects.models] and is not part of the sources;
    its members are strings, the kinds of the upstream events the spec
    names ([response.created], [response.output_text.delta], ...). *)
Module ResponseStreamEventType.
Definition RESPONSE_OUTPUT_TEXT_DONE := "response.output_text.done".
Definition RESPONSE_OUTPUT_TEXT_DELTA := "response.output_text.delta".
Definition RESPONSE_OUTPUT_ITEM_ADDED := "response.output_item.added".
Definition RESPONSE_OUTPUT_ITEM_DONE := "response.output_item.done".
Definition RESPONSE_CREATED := "response.created".
Definition RESPONSE_IN_PROGRESS := "response.in_progress".
Definition RESPONSE_COMPLETED := "response.completed".
Definition RESPONSE_FAILED := "response.failed".
Definition ERROR := "error".
End ResponseStreamEventType.
Import ResponseStreamEventType.

(* ================================================================= *)
(** ** The normalizer *)

(** The [if item:] block shared in shape by the item-added and item-done
    branches; [action] and [message] and [other] are the three outward
    names of the branch.  The function returns [None] when the block is
    skipped. *)
Definition item_event (action message other : string) (ev : value)
  : option sse_event :=
  let item := getattr ev "item" VNone in
  if truthy item then
    let item_type := getattr item "type" (VStr "unknown") in
    if eq_str item_type "workflow_action" then
      Some (mkSse action
        [("action_id", JVal (getattr item "action_id" (VStr "unknown")));
         ("status", JVal (getattr item "status" (VStr "unknown")));
         ("previous_action_id", JVal (getattr item "previous_action_id" VNone))])
    else if eq_str item_type "message" then
      Some (mkSse message
        [("role", JVal (getattr item "role" (VStr "unknown")));
         ("id", JVal (getattr item "id" (VStr "N/A")))])
    else
      Some (mkSse other [("type", JVal item_type)])
  else None.

Definition part_event (name : string) (ev : value) : sse_event :=
  let part := getattr ev "part" VNone in
  let part_type :=
    if truthy part then getattr part "type" (VStr "unknown")
    else VStr "unknown" in
  mkSse name
    [("type", JVal part_type);
     ("content_index", JVal (getattr ev "content_index" (VInt 0)))].

Definition process_stream_event (ev : value) : result (option sse_event) :=
  ty <- attr ev "type" ;;
  (* ========== TEXT EVENTS ========== *)
  if eq_str ty RESPONSE_OUTPUT_TEXT_DONE then
    text <- attr ev "text" ;;
    Ok (Some (mkSse "text_done" [("text", JVal text)]))
  else if eq_str ty RESPONSE_OUTPUT_TEXT_DELTA then
    delta <- attr ev "delta" ;;
    Ok (Some (mkSse "text_delta" [("delta", JVal delta)]))
  (* ========== WORKFLOW ACTION EVENTS ========== *)
  else if eq_str ty RESPONSE_OUTPUT_ITEM_ADDED then
    Ok (item_event "action_started" "message_started" "item_added" ev)
  else if eq_str ty RESPONSE_OUTPUT_ITEM_DONE then
    Ok (item_event "action_completed" "message_done" "item_done" ev)
  (* ========== RESPONSE-LEVEL EVENTS ========== *)
  else if eq_str ty RESPONSE_CREATED then
    response <- attr ev "response" ;;
    response_id <- attr response "id" ;;
    Ok (Some (mkSse "response_status"
                [("status", JVal (VStr "created"));
                 ("response_id", JVal response_id)]))
  else if eq_str ty RESPONSE_IN_PROGRESS then
    Ok (Some (mkSse "response_status" [("status", JVal (VStr "in_progress"))]))
  else if eq_str ty RESPONSE_COMPLETED then
    response <- attr ev "response" ;;
    let usage_data :=
      if hasattr response "usage" && truthy (getattr response "usage" VNone)
      then
        let usage := getattr response "usage" VNone in
        [("input_tokens", getattr usage "input_tokens" (VInt 0));
         ("output_tokens", getattr usage "output_tokens" (VInt 0))]
      else [] in
    Ok (Some (mkSse "response_status"
                [("status", JVal (VStr "completed"));
                 ("usage", JDict usage_data)]))
  else if eq_str ty RESPONSE_FAILED then
    let error_msg :=
      if hasattr ev "error" then py_str (getattr ev "error" VNone) else "" in
    Ok (Some (mkSse "response_status"
                [("status", JVal (VStr "failed"));
                 ("error", JVal (VStr error_msg))]))
  (* ========== CONTENT PART EVENTS ========== *)
  else if eq_str ty "response.content_part.added" then
    Ok (Some (part_event "content_part_added" ev))
  else if eq_str ty "response.content_part.done" then
    Ok (Some (part_event "content_part_done" ev))
  (* ========== ERROR EVENTS ========== *)
  else if eq_str ty ERROR then
    Ok (Some (mkSse "error" [("message", JVal (VStr (py_str ev)))]))
  else
    Ok (Some (mkSse "unknown" [("type", JVal (VStr (py_str ty)))])).

(* ================================================================= *)
(** ** [json.dumps] and the wire frames *)

(** A string stands for a Python [str] of code points below 256, one
    character each.  With the default [ensure_ascii=True] every character
    outside the printable ASCII range is written as an escape. *)
Definition hex_digit (n : nat) : string := substring n 1 "0123456789abcdef".

Definition escape_char (c : ascii) : string :=
  let n := nat_of_ascii c in
  if Nat.eqb n 34 then "\" ++ dquote
  else if Nat.eqb n 92 then "\\"
  else if Nat.eqb n 10 then "\n"
  else if Nat.eqb n 13 then "\r"
  else if Nat.eqb n 9 then "\t"
  else if Nat.eqb n 12 then "\f"
  else if Nat.eqb n 8 then "\b"
  else if Nat.leb 32 n && Nat.leb n 126 then String c EmptyString
  else "\u00" ++ hex_digit (n / 16) ++ hex_digit (n mod 16).

Fixpoint escape (s : string) : string :=
  match s with
  | EmptyString => EmptyString
  | String c rest => escape_char c ++ escape rest
  end.

Definition json_string (s : string) : string := dquote ++ escape s ++ dquote.

Definition TypeError_not_serializable (o : value) : exn :=
  mkExn "TypeError"
        ("Object of type " ++ type_name o ++ " is not JSON serializable").

Definition json_value (v : value) : result string :=
  match v with
  | VNone => Ok "null"
  | VBool true => Ok "true"
  | VBool false => Ok "false"
  | VInt n => Ok (str_of_Z n)
  | VStr s => Ok (json_string s)
  | VObj _ _ _ => Raise (TypeError_not_serializable v)
  end.

(** The members of a dictionary, in insertion order, separated by [", "],
    each written [key: value]. *)
Fixpoint json_members {A} (dump : A -> result string) (d : list (string * A))
  : result string :=
  match d with
  | [] => Ok ""
  | (k, v) :: rest =>
      s <- dump v ;;
      match rest with
      | [] => Ok (json_string k ++ ": " ++ s)%string
      | _ :: _ =>
          r <- json_members dump rest ;;
          Ok (json_string k ++ ": " ++ s ++ ", " ++ r)%string
      end
  end.

Definition json_dict {A} (dump : A -> result string) (d : list (string * A))
  : result string :=
  m <- json_members dump d ;; Ok ("{" ++ m ++ "}")%string.

Definition json_jvalue (j : jvalue) : result string :=
  match j with
  | JVal v => json_value v
  | JDict d => json_dict json_value d
  end.

(** [json.dumps(data)] for the [data] dictionary of an outward event. *)
Definition json_dumps (d : list (string * jvalue)) : result string :=
  json_dict json_jvalue d.

(** [f"event: {event_type}\ndata: {event_data}\n\n"] *)
Definition sse_frame (event_type event_data : string) : string :=
  "event: " ++ event_type ++ newline ++ "data: " ++ event_data
            ++ newline ++ newline.

(** [f"event: done\ndata: {{}}\n\n"] *)
Definition done_frame : string :=
  "event: done" ++ newline ++ "data: {}" ++ newline ++ newline.


(* ================================================================= *)
(** ** The remote service and the generator monad *)

(** What [responses.create(..., stream=True)] returns: the raw events the
    iteration hands out, and how the iteration ends: exhausted ([None]) or
    by raising. *)
Record stream : Type := mkStream {
  stream_events : list value;
  stream_end : option exn
}.

(** The three remote operations, as the answers the service gives to one
    request.  [remote_create] stands for everything the generator does up
    to [conversations.create()], the construction of the clients included,
    and answers with the id of the new conversation; leaving the [with]
    block is taken not to raise.  The worker thread drives the generator
    to its end, so no run is abandoned at a [yield]. *)
Record upstream : Type := mkUpstream {
  remote_create : result string;
  remote_responses : string -> string -> result stream;
  remote_delete : string -> result unit
}.

(** What a run of the generator does, in program order. *)
Inductive effect : Type :=
| Yield (e : sse_event)
| ConversationsCreate
| ResponsesCreate (conversation input : string)
| ConversationsDelete (conversation_id : string).

(** A generator body: the effects performed, and whether the body ran to
    its end or an exception left it. *)
Definition gen (A : Type) : Type := (list effect * result A)%type.

Definition ret {A} (a : A) : gen A := ([], Ok a).

Definition raise {A} (e : exn) : gen A := ([], Raise e).

Definition bind {A B} (m : gen A) (f : A -> gen B) : gen B :=
  match m with
  | (t, Ok a) => let (t', r) := f a in (t ++ t', r)
  | (t, Raise e) => (t, Raise e)
  end.

Notation "x <~ m ;; k" := (bind m (fun x => k))
  (at level 61, m at next level, right associativity).
Notation "m ;;; k" := (bind m (fun _ => k))
  (at level 61, right associativity).

Definition yield (e : sse_event) : gen unit := ([Yield e], Ok tt).

Definition lift {A} (r : result A) : gen A := ([], r).

(** [try: body  except Exception as e: handler(e)]: an exception that is
    not an instance of [Exception] is not caught and goes on. *)
Definition try_except {A} (body : gen A) (handler : exn -> gen A) : gen A :=
  match body with
  | (t, Ok a) => (t, Ok a)
  | (t, Raise e) =>
      if is_exception e
      then let (t', r) := handler e in (t ++ t', r)
      else (t, Raise e)
  end.

(** [try: body  finally: cleanup]: the cleanup always runs; an exception of
    the cleanup replaces the outcome of the body. *)
Definition try_finally {A} (body : gen A) (cleanup : gen unit) : gen A :=
  let (t, r) := body in
  match cleanup with
  | (t', Ok _) => (t ++ t', r)
  | (t', Raise e) => (t ++ t', Raise e)
  end.

(** [for ev in stream: body(ev)] *)
Fixpoint for_each (events : list value) (ending : option exn)
         (body : value -> gen unit) : gen unit :=
  match events with
  | [] => match ending with
          | None => ret tt
          | Some e => raise e
          end
  | ev :: rest => body ev ;;; for_each rest ending body
  end.

Definition yielded (t : list effect) : list sse_event :=
  flat_map (fun x => match x with Yield e => [e] | _ => [] end) t.

Definition is_delete (x : effect) : bool :=
  match x with ConversationsDelete _ => true | _ => false end.

(** The number of delete-conversation calls of a run. *)
Definition delete_attempts (t : list effect) : nat :=
  length (filter is_delete t).

(* ================================================================= *)
(** ** The session orchestrator *)

Definition conversation_created (id : string) : sse_event :=
  mkSse "conversation_created" [("conversation_id", JVal (VStr id))].

Definition conversation_deleted (id : string) : sse_event :=
  mkSse "conversation_deleted" [("conversation_id", JVal (VStr id))].

Definition error_event (message : string) : sse_event :=
  mkSse "error" [("message", JVal (VStr message))].

Section Orchestrator.

Variable remote : upstream.

Definition conversations_create : gen string :=
  ([ConversationsCreate], remote_create remote).

Definition responses_create (conversation input : string) : gen stream :=
  ([ResponsesCreate conversation input],
   remote_responses remote conversation input).

Definition conversations_delete (conversation_id : string) : gen unit :=
  ([ConversationsDelete conversation_id], remote_delete remote conversation_id).

Definition stream_agent_response (query : string) : gen unit :=
  conversation <~ conversations_create ;;
  yield (conversation_created conversation) ;;;
  try_finally
    (try_except
       (stream <~ responses_create conversation query ;;
        for_each (stream_events stream) (stream_end stream) (fun ev =>
          sse_event <~ lift (process_stream_event ev) ;;
          match sse_event with
          | Some e => yield e
          | None => ret tt
          end))
       (fun e => yield (error_event (str_exn e))))
    (* Cleanup conversation *)
    (try_except
       (conversations_delete conversation ;;;
        yield (conversation_deleted conversation))
       (fun _ => ret tt)).

(** The worker thread of [event_generator]: every item it puts on the
    queue, in order; [None] is the completion signal.  The events yielded
    before an exception are already on the queue when it is raised; an
    exception that [except Exception] does not catch ends the thread with
    nothing more put. *)
Definition run_sync_generator (query : string) : list (option sse_event) :=
  match stream_agent_response query with
  | (t, Ok _) => map Some (yielded t) ++ [None]
  | (t, Raise e) =>
      if is_exception e
      then map Some (yielded t) ++ [Some (error_event (str_exn e)); None]
      else map Some (yielded t)
  end.

End Orchestrator.

(* ================================================================= *)
(** ** The streaming bridge and the transport *)

(** Where the polling loop of [event_generator] stands: still polling; left
    by the completion signal and the final frame sent; left by an exception
    raised inside the loop, with the error frame and the final frame sent;
    or left by an exception that escaped the function. *)
Inductive phase : Type := Polling | Completed | Aborted | Crashed.

(** The consuming side: the events the loop has taken from the queue and the
    frames it has yielded to the response, oldest first. *)
Record consumer : Type := mkConsumer {
  received : list sse_event;
  frames : list string;
  phase_of : phase
}.

Definition consumer_start : consumer := mkConsumer [] [] Polling.

(** The frame of the handler [except Exception as e] of [event_generator]. *)
Definition error_frame (e : exn) : result string :=
  error_data <- json_dumps [("message", JVal (VStr (str_exn e)))] ;;
  Ok (sse_frame "error" error_data).

(** One turn of the loop on the item [queue.get] returned, followed, when
    the loop is left, by what comes after the loop. *)
Definition consume (c : consumer) (item : option sse_event) : consumer :=
  match phase_of c with
  | Polling =>
      match item with
      | None =>
          mkConsumer (received c) (frames c ++ [done_frame]) Completed
      | Some e =>
          let event_type := event e in
          match json_dumps (data e) with
          | Ok event_data =>
              mkConsumer (received c ++ [e])
                         (frames c ++ [sse_frame event_type event_data])
                         Polling
          | Raise x =>
              if is_exception x then
                match error_frame x with
                | Ok f =>
                    mkConsumer (received c ++ [e])
                               (frames c ++ [f; done_frame]) Aborted
                | Raise _ =>
                    mkConsumer (received c ++ [e]) (frames c) Crashed
                end
              else mkConsumer (received c ++ [e]) (frames c) Crashed
          end
      end
  | _ => c
  end.

(** The frames of a response whose worker puts [items], when the loop takes
    them one after the other. *)
Definition transport (items : list (option sse_event)) : consumer :=
  fold_left consume items consumer_start.

(** The worker thread, the queue and the loop together. [pending] holds the
    items the worker has still to put, [event_queue] the queue, oldest item
    first. *)
Record bridge : Type := mkBridge {
  pending : list (option sse_event);
  event_queue : list (option sse_event);
  loop : consumer
}.

Definition bridge_start (items : list (option sse_event)) : bridge :=
  mkBridge items [] consumer_start.

(** The worker puts its next item; or the loop polls: on an empty queue
    [queue.get] times out and the loop goes round, otherwise it takes the
    oldest item.  The steps are those of a response that is read to its
    end: a client that disconnects, which cancels the coroutine at its
    [await] or [yield], and a thread that cannot be started are outside
    this relation. *)
Inductive step : bridge -> bridge -> Prop :=
| step_put x p q c :
    step (mkBridge (x :: p) q c) (mkBridge p (q ++ [x]) c)
| step_empty p c :
    phase_of c = Polling ->
    step (mkBridge p [] c) (mkBridge p [] c)
| step_get x p q c :
    phase_of c = Polling ->
    step (mkBridge p (x :: q) c) (mkBridge p q (consume c x)).

Inductive reachable (items : list (option sse_event)) : bridge -> Prop :=
| reach_start : reachable items (bridge_start items)
| reach_step b b' : reachable items b -> step b b' -> reachable items b'.

(** The states of one request to [POST /api/chat]. *)
Definition request_reaches (remote : upstream) (query : string) (b : bridge)
  : Prop :=
  reachable (run_sync_generator remote query) b.

(** The loop has been left. *)
Definition finished (c : consumer) : bool :=
  match phase_of c with
  | Polling => false
  | _ => true
  end.

(** The names the normalizer gives to its events, and the whole outward
    vocabulary. *)
Definition normalizer_names : list string :=
  ["text_delta"; "text_done";
   "action_started"; "action_completed"; "message_started"; "message_done";
   "item_added"; "item_done"; "response_status"; "content_part_added";
   "content_part_done"; "error"; "unknown"].

Definition outward_names : list string :=
  "conversation_created" :: "conversation_deleted" :: normalizer_names.

(** The events between [conversation_created] and the cleanup, as a plain
    function of the raw events: used to state what the generator yields. *)
Fixpoint normalized (events : list value) (ending : option exn)
  : list sse_event * option exn :=
  match events with
  | [] => ([], ending)
  | ev :: rest =>
      match process_stream_event ev with
      | Raise e => ([], Some e)
      | Ok None => normalized rest ending
      | Ok (Some s) => let (l, r) := normalized rest ending in (s :: l, r)
      end
  end.

(** The exception that ends the streaming, if any: that of
    [responses.create], of the normalizer or of the iteration. *)
Definition stream_failure (remote : upstream) (conversation query : string)
  : option exn :=
  match remote_responses remote conversation query with
  | Raise e => Some e
  | Ok s => snd (normalized (stream_events s) (stream_end s))
  end.

(** The [error] event of a handler [except Exception as e]. *)
Definition caught (failure : option exn) : list sse_event :=
  match failure with
  | Some e => if is_exception e then [error_event (str_exn e)] else []
  | None => []
  end.

Definition streamed (remote : upstream) (conversation query : string)
  : list sse_event :=
  match remote_responses remote conversation query with
  | Raise e => caught (Some e)
  | Ok s =>
      let (l, r) := normalized (stream_events s) (stream_end s) in
      l ++ caught r
  end.

Definition passes (failure : option exn) : result unit :=
  match failure with
  | Some e => if is_exception e then Ok tt else Raise e
  | None => Ok tt
  end.

(** How the generator ends once the conversation is created: an exception
    no handler catches leaves it, that of the cleanup before that of the
    streaming. *)
Definition generator_outcome (remote : upstream) (conversation query : string)
  : result unit :=
  match remote_delete remote conversation with
  | Ok _ => passes (stream_failure remote conversation query)
  | Raise e =>
      if is_exception e
      then passes (stream_failure remote conversation query)
      else Raise e
  end.

(** Every exception raised in the course of the request is an instance of
    [Exception]. *)
Definition ordinary_failures (remote : upstream) (query : string) : bool :=
  match remote_create remote with
  | Raise e => is_exception e
  | Ok conversation =>
      match generator_outcome remote conversation query with
      | Ok _ => true
      | Raise _ => false
      end
  end.

Definition cleanup_events (remote : upstream) (conversation : string)
  : list sse_event :=
  match remote_delete remote conversation with
  | Ok _ => [conversation_deleted conversation]
  | Raise _ => []
  end.

(** The kinds [process_stream_event] has a branch for. *)
Definition known_kinds : list string :=
  [RESPONSE_OUTPUT_TEXT_DONE; RESPONSE_OUTPUT_TEXT_DELTA;
   RESPONSE_OUTPUT_ITEM_ADDED; RESPONSE_OUTPUT_ITEM_DONE;
   RESPONSE_CREATED; RESPONSE_IN_PROGRESS; RESPONSE_COMPLETED;
   RESPONSE_FAILED; "response.content_part.added";
   "response.content_part.done"; ERROR].

(** The fields [process_stream_event] reads with a plain attribute access,
    [event.text], [event.delta], [event.response] and [event.response.id]:
    whether an event of kind [k] has them. *)
Definition direct_fields_present (ev : value) (k : string) : bool :=
  if String.eqb k RESPONSE_OUTPUT_TEXT_DONE then hasattr ev "text"
  else if String.eqb k RESPONSE_OUTPUT_TEXT_DELTA then hasattr ev "delta"
  else if String.eqb k RESPONSE_CREATED then
    match lookup_attr ev "response" with
    | Some response => hasattr response "id"
    | None => false
    end
  else if String.eqb k RESPONSE_COMPLETED then hasattr ev "response"
  else true.

(** No [item] attribute, or an [item] that is [None]. *)
Definition no_sub_record (ev : value) (name : string) : Prop :=
  lookup_attr ev name = None \/ lookup_attr ev name = Some VNone.

(** *** Runs of the bridge *)

Inductive steps : bridge -> bridge -> Prop :=
| steps_refl b : steps b b
| steps_cons b b' b'' : step b b' -> steps b' b'' -> steps b b''.

(** The events among the items of the queue. *)
Definition somes (items : list (option sse_event)) : list sse_event :=
  flat_map (fun x => match x with Some e => [e] | None => [] end) items.

(** The frame the loop yields for an event. *)
Definition frame_of (e : sse_event) : result string :=
  event_data <- json_dumps (data e) ;;
  Ok (sse_frame (event e) event_data).

(** The outward events of a request, in the order of production: what the
    generator yields, and the error event the worker adds when an exception
    leaves the generator. *)
Definition outward_events (remote : upstream) (query : string)
  : list sse_event :=
  match stream_agent_response remote query with
  | (t, Ok _) => yielded t
  | (t, Raise e) => yielded t ++ caught (Some e)
  end.

(** What the worker puts after the events: the completion signal, unless
    an exception that is not an instance of [Exception] has ended it. *)
Definition completion (remote : upstream) (query : string)
  : list (option sse_event) :=
  if ordinary_failures remote query then [None] else [].

Definition well_named (items : list (option sse_event)) : Prop :=
  forall e, In (Some e) items -> In (event e) outward_names.

Definition serializable (e : sse_event) : Prop :=
  exists f, frame_of e = Ok f.

(** What the frames of the loop look like: while it polls, the final frame
    has not been sent; once it is left, the final frame is the last frame and
    occurs nowhere else. *)
Definition terminal_frame_once (c : consumer) : Prop :=
  (phase_of c = Polling /\ ~ In done_frame (frames c)) \/
  ((phase_of c = Completed \/ phase_of c = Aborted) /\
   exists pre, frames c = pre ++ [done_frame] /\ ~ In done_frame pre).

(** *** Sample inputs *)

Definition raw (cls : string) (attrs : list (string * value)) : value :=
  VObj cls ("<" ++ cls ++ ">") attrs.

Definition text_done_without_text : value :=
  raw "ResponseTextDoneEvent" [("type", VStr RESPONSE_OUTPUT_TEXT_DONE)].

Definition text_done_pong : value :=
  raw "ResponseTextDoneEvent"
      [("type", VStr RESPONSE_OUTPUT_TEXT_DONE); ("text", VStr "pong")].

Definition text_delta_pong : value :=
  raw "ResponseTextDeltaEvent"
      [("type", VStr RESPONSE_OUTPUT_TEXT_DELTA); ("delta", VStr "pong")].

Definition bare_action_item : value :=
  raw "WorkflowActionItem" [("type", VStr "workflow_action")].

Definition bare_message_item : value :=
  raw "Message" [("type", VStr "message")].

Definition item_added (item : value) : value :=
  raw "ResponseOutputItemAddedEvent"
      [("type", VStr RESPONSE_OUTPUT_ITEM_ADDED); ("item", item)].

Definition item_added_without_item : value :=
  raw "ResponseOutputItemAddedEvent"
      [("type", VStr RESPONSE_OUTPUT_ITEM_ADDED)].

Definition part_added_without_part : value :=
  raw "ResponseContentPartAddedEvent"
      [("type", VStr "response.content_part.added")].

Definition future_event : value :=
  raw "ResponseReasoningEvent" [("type", VStr "response.reasoning.delta")].

Definition response_created_event : value :=
  raw "ResponseCreatedEvent"
      [("type", VStr RESPONSE_CREATED);
       ("response", raw "Response" [("id", VStr "resp_1")])].

Definition response_completed_event : value :=
  raw "ResponseCompletedEvent"
      [("type", VStr RESPONSE_COMPLETED);
       ("response",
        raw "Response"
            [("id", VStr "resp_1");
             ("usage", raw "ResponseUsage"
                           [("input_tokens", VInt 1);
                            ("output_tokens", VInt 1)])])].

Definition ping_stream : stream :=
  mkStream [response_created_event; text_delta_pong; text_done_pong;
            response_completed_event] None.

Definition broken_stream : stream :=
  mkStream [text_delta_pong; text_done_pong]
           (Some (mkExn "APIConnectionError" "Connection error.")).

Definition remote_ok : upstream :=
  mkUpstream (Ok "conv_1") (fun _ _ => Ok ping_stream) (fun _ => Ok tt).

Definition remote_stream_breaks : upstream :=
  mkUpstream (Ok "conv_1") (fun _ _ => Ok broken_stream) (fun _ => Ok tt).

Definition remote_malformed_event : upstream :=
  mkUpstream (Ok "conv_1")
             (fun _ _ => Ok (mkStream [text_done_without_text; text_delta_pong]
                                      None))
             (fun _ => Ok tt).

Definition KeyboardInterrupt : exn := mkExnOf "KeyboardInterrupt" "" false.

Definition remote_create_interrupted : upstream :=
  mkUpstream (Raise KeyboardInterrupt)
             (fun _ _ => Ok ping_stream) (fun _ => Ok tt).

Definition remote_stream_interrupted : upstream :=
  mkUpstream (Ok "conv_1")
             (fun _ _ => Ok (mkStream [text_delta_pong] (Some KeyboardInterrupt)))
             (fun _ => Ok tt).

Definition remote_delete_interrupted : upstream :=
  mkUpstream (Ok "conv_1") (fun _ _ => Ok ping_stream)
             (fun _ => Raise KeyboardInterrupt).


Definition remote_delete_fails : upstream :=
  mkUpstream (Ok "conv_1") (fun _ _ => Ok ping_stream)
             (fun _ => Raise (mkExn "HttpResponseError" "Not found")).

(** *** Further notions used to state properties *)

(** The [status] of a [response_status] payload. *)
Definition status_of (s : sse_event) : string :=
  match assoc "status" (data s) with
  | Some (JVal (VStr t)) => t
  | _ => ""
  end.

(** The keys of the payload of an outward event of the normalizer, by the
    name of the event (and, for [response_status], by its status). *)
Definition payload_keys (s : sse_event) : list string :=
  let name := event s in
  if String.eqb name "text_done" then ["text"]
  else if String.eqb name "text_delta" then ["delta"]
  else if String.eqb name "action_started"
          || String.eqb name "action_completed"
       then ["action_id"; "status"; "previous_action_id"]
  else if String.eqb name "message_started" || String.eqb name "message_done"
       then ["role"; "id"]
  else if String.eqb name "item_added" || String.eqb name "item_done"
       then ["type"]
  else if String.eqb name "content_part_added"
          || String.eqb name "content_part_done"
       then ["type"; "content_index"]
  else if String.eqb name "error" then ["message"]
  else if String.eqb name "unknown" then ["type"]
  else if String.eqb name "response_status" then
    if String.eqb (status_of s) "created" then ["status"; "response_id"]
    else if String.eqb (status_of s) "in_progress" then ["status"]
    else if String.eqb (status_of s) "completed" then ["status"; "usage"]
    else if String.eqb (status_of s) "failed" then ["status"; "error"]
    else []
  else [].


(** Whether [process_stream_event] raises on [ev]: there is no [type] to
    dispatch on, or a field read by plain attribute access is absent. *)
Definition normalizer_raises (ev : value) : bool :=
  match lookup_attr ev "type" with
  | None => true
  | Some (VStr k) => negb (direct_fields_present ev k)
  | Some _ => false
  end.

(** An item-added or item-done event. *)
Definition is_item_kind (ev : value) : bool :=
  match lookup_attr ev "type" with
  | Some ty =>
      eq_str ty RESPONSE_OUTPUT_ITEM_ADDED || eq_str ty RESPONSE_OUTPUT_ITEM_DONE
  | None => false
  end.

(** The outward events of raw events, one after the other, for events the
    normalizer does not raise on. *)
Definition normalize_each (events : list value) : list sse_event :=
  flat_map (fun ev => match process_stream_event ev with
                      | Ok (Some s) => [s]
                      | _ => []
                      end) events.

Definition normalizes (ev : value) : Prop :=
  exists r, process_stream_event ev = Ok r.

Definition is_call (x : effect) : bool :=
  match x with Yield _ => false | _ => true end.

(** The remote calls of a run, in order. *)
Definition remote_calls (t : list effect) : list effect := filter is_call t.

(** The number of events of a given name. *)
Definition count_named (name : string) (l : list sse_event) : nat :=
  length (filter (fun s => String.eqb (event s) name) l).

(** What the worker and the loop have still to do: each pending item is put
    once and taken once. *)
Definition work (b : bridge) : nat :=
  2 * length (pending b) + length (event_queue b).

(** Runs of the bridge with the number of their steps that are not idle
    polls. *)
Inductive run : nat -> bridge -> bridge -> Prop :=
| run_refl b : run 0 b b
| run_idle n b b' : step b b -> run n b b' -> run n b b'
| run_work n b b1 b' : step b b1 -> b1 <> b -> run n b1 b' -> run (S n) b b'.



Definition message_item_without_id (status : value) : value :=
  raw "Message" [("type", VStr "message"); ("id", status)].

Definition function_call_item : value :=
  raw "FunctionCall" [("type", VStr "function_call")].

Definition response_failed_event : value :=
  raw "ResponseFailedEvent"
      [("type", VStr RESPONSE_FAILED); ("error", VNone)].

Definition part_added_with_text_part : value :=
  raw "ResponseContentPartAddedEvent"
      [("type", VStr "response.content_part.added");
       ("part", raw "ResponseOutputText" [("type", VStr "output_text")]);
       ("content_index", VInt 2)].

Definition opaque_status : value := raw "Status" [].

Definition unserializable_item : value :=
  raw "WorkflowActionItem"
      [("type", VStr "workflow_action"); ("action_id", VStr "a1");
       ("status", opaque_status)].

Definition remote_unserializable : upstream :=
  mkUpstream (Ok "conv_1")
             (fun _ _ => Ok (mkStream [text_delta_pong;
                                       item_added unserializable_item;
                                       text_done_pong] None))
             (fun _ => Ok tt).

Definition remote_responses_fail : upstream :=
  mkUpstream (Ok "conv_1")
             (fun _ _ => Raise (mkExn "BadRequestError" "Unknown agent"))
             (fun _ => Ok tt).

(* ================================================================= *)
(** * Properties *)

(** ** The generator *)

Lemma for_each_normalized events ending :
  for_each events ending (fun ev =>
    sse_event <~ lift (process_stream_event ev) ;;
    match sse_event with
    | Some e => yield e
    | None => ret tt
    end)
  = (map Yield (fst (normalized events ending)),
     match snd (normalized events ending) with
     | None => Ok tt
     | Some e => Raise e
     end).
Proof.
  set (body := fun ev : value => _).
  induction events as [|ev rest IH]; cbn [for_each normalized].
  - destruct ending; reflexivity.
  - rewrite IH. unfold body, bind, lift, yield, ret.
    destruct (process_stream_event ev) as [[s|]|e];
      destruct (normalized rest ending) as [l r]; simpl;
      try destruct r; reflexivity.
Qed.

(** A run whose create-conversation call succeeds. *)
Lemma stream_agent_response_created remote query conversation :
  remote_create remote = Ok conversation ->
  stream_agent_response remote query =
  ([ConversationsCreate; Yield (conversation_created conversation);
    ResponsesCreate conversation query]
     ++ map Yield (streamed remote conversation query)
     ++ [ConversationsDelete conversation]
     ++ map Yield (cleanup_events remote conversation),
   generator_outcome remote conversation query).
Proof.
  intros Hc. unfold stream_agent_response, conversations_create,
    responses_create, conversations_delete, streamed, cleanup_events,
    generator_outcome, stream_failure, caught, passes.
  rewrite Hc. simpl.
  destruct (remote_responses remote conversation query) as [s|e]; simpl.
  - rewrite for_each_normalized.
    destruct (normalized (stream_events s) (stream_end s)) as [l r]; simpl.
    destruct r as [e|]; simpl; try destruct (is_exception e); simpl;
      destruct (remote_delete remote conversation) as [[]|e']; simpl;
      try destruct (is_exception e'); simpl;
      rewrite ?map_app, ?app_nil_r, <- ?app_assoc; reflexivity.
  - destruct (is_exception e); simpl;
      destruct (remote_delete remote conversation) as [[]|e']; simpl;
      try destruct (is_exception e'); reflexivity.
Qed.

(** A run whose create-conversation call raises. *)
Lemma stream_agent_response_not_created remote query e :
  remote_create remote = Raise e ->
  stream_agent_response remote query = ([ConversationsCreate], Raise e).
Proof.
  intros Hc. unfold stream_agent_response, conversations_create.
  rewrite Hc. reflexivity.
Qed.

(** ** The normalizer *)

Lemma eq_str_true v s : eq_str v s = true <-> v = VStr s.
Proof.
  destruct v; simpl; split; try discriminate.
  - intros H. apply String.eqb_eq in H. now subst.
  - intros H. injection H as ->. apply String.eqb_refl.
Qed.

Lemma eq_str_false v s : v <> VStr s -> eq_str v s = false.
Proof.
  intros H. destruct (eq_str v s) eqn:E; [|reflexivity].
  apply eq_str_true in E. contradiction.
Qed.

Lemma attr_type ev k :
  lookup_attr ev "type" = Some k -> attr ev "type" = Ok k.
Proof. unfold attr. now intros ->. Qed.

Ltac split_branches :=
  repeat match goal with
         | H : context [if ?b then _ else _] |- _ => destruct b
         | H : context [match lookup_attr ?o ?n with _ => _ end] |- _ =>
             destruct (lookup_attr o n)
         end.

(** Every event the normalizer returns bears a name of the vocabulary. *)
Lemma item_event_names a m o ev s :
  item_event a m o ev = Some s -> event s = a \/ event s = m \/ event s = o.
Proof.
  unfold item_event. intros H.
  destruct (truthy _); [|discriminate].
  destruct (eq_str _ "workflow_action"); [injection H as <-; auto|].
  destruct (eq_str _ "message"); injection H as <-; auto.
Qed.

Lemma process_stream_event_names ev s :
  process_stream_event ev = Ok (Some s) -> In (event s) normalizer_names.
Proof.
  unfold process_stream_event, rbind, attr. intros H.
  destruct (lookup_attr ev "type") as [ty|]; [|discriminate].
  destruct (eq_str ty RESPONSE_OUTPUT_TEXT_DONE).
  { split_branches; inversion H; subst; simpl; tauto. }
  destruct (eq_str ty RESPONSE_OUTPUT_TEXT_DELTA).
  { split_branches; inversion H; subst; simpl; tauto. }
  destruct (eq_str ty RESPONSE_OUTPUT_ITEM_ADDED).
  { injection H as H. apply item_event_names in H. simpl.
    destruct H as [-> | [-> | ->]]; tauto. }
  destruct (eq_str ty RESPONSE_OUTPUT_ITEM_DONE).
  { injection H as H. apply item_event_names in H. simpl.
    destruct H as [-> | [-> | ->]]; tauto. }
  destruct (eq_str ty RESPONSE_CREATED).
  { split_branches; inversion H; subst; simpl; tauto. }
  destruct (eq_str ty RESPONSE_IN_PROGRESS).
  { inversion H; subst; simpl; tauto. }
  destruct (eq_str ty RESPONSE_COMPLETED).
  { destruct (lookup_attr ev "response"); inversion H; subst; simpl; tauto. }
  destruct (eq_str ty RESPONSE_FAILED).
  { inversion H; subst; simpl; tauto. }
  destruct (eq_str ty "response.content_part.added").
  { inversion H; subst; simpl; tauto. }
  destruct (eq_str ty "response.content_part.done").
  { inversion H; subst; simpl; tauto. }
  destruct (eq_str ty ERROR); inversion H; subst; simpl; tauto.
Qed.

(** C7: a raw event whose kind is none of the known kinds is normalized,
    without raising, to the outward event [unknown] whose data holds the
    kind as a string. *)
Theorem unknown_kind_degrades ev k :
  lookup_attr ev "type" = Some k ->
  ~ In k (map VStr known_kinds) ->
  process_stream_event ev
  = Ok (Some (mkSse "unknown" [("type", JVal (VStr (py_str k)))])).
Proof.
  intros Hk Hn. unfold process_stream_event. rewrite (attr_type _ Hk).
  cbn [rbind].
  assert (F : forall s, In s known_kinds -> eq_str k s = false).
  { intros s Hs. apply eq_str_false. intros ->. apply Hn.
    now apply in_map. }
  rewrite !F by (simpl; tauto). reflexivity.
Qed.

Lemma unknown_kind_degrades_witness :
  process_stream_event future_event
  = Ok (Some (mkSse "unknown"
                    [("type", JVal (VStr "response.reasoning.delta"))])).
Proof.
  apply (@unknown_kind_degrades future_event (VStr "response.reasoning.delta")).
  - reflexivity.
  - simpl. intros H.
    repeat (destruct H as [H|H]; [discriminate H|]). exact H.
Defined.

(** C6: an item-added or item-done event that carries no item sub-record
    makes the normalizer return [None]: no outward event is produced. *)
Theorem null_item_suppressed ev :
  lookup_attr ev "type" = Some (VStr RESPONSE_OUTPUT_ITEM_ADDED) \/
  lookup_attr ev "type" = Some (VStr RESPONSE_OUTPUT_ITEM_DONE) ->
  no_sub_record ev "item" ->
  process_stream_event ev = Ok None.
Proof.
  intros Hk Hi. unfold process_stream_event.
  assert (E : getattr ev "item" VNone = VNone).
  { unfold getattr. destruct Hi as [-> | ->]; reflexivity. }
  destruct Hk as [Hk | Hk]; rewrite (attr_type _ Hk); cbn;
    unfold item_event; rewrite E; reflexivity.
Qed.

Lemma null_item_suppressed_witness :
  process_stream_event item_added_without_item = Ok None.
Proof.
  apply null_item_suppressed.
  - left. reflexivity.
  - left. reflexivity.
Defined.

(** C10: a content-part added or done event without a part sub-record is
    not suppressed: the normalizer emits [content_part_added] or
    [content_part_done] with type [unknown], and with content index 0
    when the event has no [content_index] either. *)
Theorem null_part_not_suppressed ev (added : bool) :
  lookup_attr ev "type"
  = Some (VStr (if added then "response.content_part.added"
                else "response.content_part.done")) ->
  no_sub_record ev "part" ->
  process_stream_event ev
  = Ok (Some (mkSse (if added then "content_part_added"
                     else "content_part_done")
                    [("type", JVal (VStr "unknown"));
                     ("content_index",
                      JVal match lookup_attr ev "content_index" with
                           | Some index => index
                           | None => VInt 0
                           end)])).
Proof.
  intros Hk Hp. unfold process_stream_event.
  assert (E : getattr ev "part" VNone = VNone).
  { unfold getattr. destruct Hp as [-> | ->]; reflexivity. }
  rewrite (attr_type _ Hk).
  destruct added; cbn; unfold part_event; rewrite E; reflexivity.
Qed.

Lemma null_part_not_suppressed_witness :
  process_stream_event part_added_without_part
  = Ok (Some (mkSse "content_part_added"
                    [("type", JVal (VStr "unknown"));
                     ("content_index", JVal (VInt 0))])).
Proof.
  apply (@null_part_not_suppressed part_added_without_part true).
  - reflexivity.
  - left. reflexivity.
Defined.

(** C3 as stated fails: a text-done event without [text] makes the
    normalizer raise, although its kind is a known one. *)
Lemma missing_text_raises :
  ~ (forall ev k,
        lookup_attr ev "type" = Some (VStr k) -> In k known_kinds ->
        exists r, process_stream_event ev = Ok r).
Proof.
  intros H.
  destruct (H text_done_without_text RESPONSE_OUTPUT_TEXT_DONE) as [r Hr].
  - reflexivity.
  - simpl. tauto.
  - discriminate Hr.
Qed.

(** C3, amended: on an event of a known kind the normalizer raises exactly
    when a field it reads by plain attribute access is absent, the text of
    a text-done event, the delta of a text-delta event, the response of a
    response-created or response-completed event, or the id of the
    response of a response-created event, and what it raises is an
    [AttributeError]; every other field may be absent. *)
Theorem known_kind_raises_only_on_direct_fields ev k :
  lookup_attr ev "type" = Some (VStr k) ->
  In k known_kinds ->
  if direct_fields_present ev k
  then exists r, process_stream_event ev = Ok r
  else exists o name, process_stream_event ev = Raise (AttributeError o name).
Proof.
  intros Hk Hin. unfold process_stream_event.
  rewrite (attr_type _ Hk).
  simpl in Hin.
  repeat (destruct Hin as [<- | Hin]); try contradiction;
    cbn; unfold hasattr, attr;
    repeat match goal with
           | |- context [match lookup_attr ?o ?n with _ => _ end] =>
               destruct (lookup_attr o n) eqn:?; cbn
           end;
    try (eexists; reflexivity);
    try (eexists; eexists; reflexivity).
Qed.

Lemma known_kind_raises_only_on_direct_fields_witness :
  (exists r, process_stream_event text_done_pong = Ok r) /\
  (exists o name,
      process_stream_event text_done_without_text
      = Raise (AttributeError o name)).
Proof.
  split.
  - apply (@known_kind_raises_only_on_direct_fields
             text_done_pong RESPONSE_OUTPUT_TEXT_DONE);
      [reflexivity | simpl; tauto].
  - apply (@known_kind_raises_only_on_direct_fields
             text_done_without_text RESPONSE_OUTPUT_TEXT_DONE);
      [reflexivity | simpl; tauto].
Defined.

(** C4 as stated fails: a workflow-action item without [action_id] is
    normalized with the action id ["unknown"], not ["N/A"]. *)
Lemma action_id_default_is_unknown :
  lookup_attr bare_action_item "action_id" = None /\
  exists s,
    process_stream_event (item_added bare_action_item) = Ok (Some s) /\
    assoc "action_id" (data s) = Some (JVal (VStr "unknown")) /\
    assoc "action_id" (data s) <> Some (JVal (VStr "N/A")).
Proof.
  split; [reflexivity|]. eexists. split; [reflexivity|].
  split; [reflexivity|]. discriminate.
Qed.

Lemma item_event_defaults a m o ev item :
  lookup_attr ev "item" = Some item ->
  truthy item = true ->
  exists s,
    item_event a m o ev = Some s /\
    (getattr item "type" (VStr "unknown") = VStr "workflow_action" ->
     event s = a /\
     (lookup_attr item "status" = None ->
      assoc "status" (data s) = Some (JVal (VStr "unknown"))) /\
     (lookup_attr item "action_id" = None ->
      assoc "action_id" (data s) = Some (JVal (VStr "unknown"))) /\
     (lookup_attr item "previous_action_id" = None ->
      assoc "previous_action_id" (data s) = Some (JVal VNone))) /\
    (getattr item "type" (VStr "unknown") = VStr "message" ->
     event s = m /\
     (lookup_attr item "id" = None ->
      assoc "id" (data s) = Some (JVal (VStr "N/A"))) /\
     (lookup_attr item "role" = None ->
      assoc "role" (data s) = Some (JVal (VStr "unknown"))) /\
     assoc "status" (data s) = None).
Proof.
  intros Hi Ht. unfold item_event.
  assert (E : getattr ev "item" VNone = item).
  { unfold getattr. now rewrite Hi. }
  rewrite E, Ht.
  destruct (eq_str (getattr item "type" (VStr "unknown")) "workflow_action")
    eqn:Ea.
  - apply eq_str_true in Ea. eexists. split; [reflexivity|].
    split; intros Hty.
    + cbn. unfold getattr. repeat split; intros ->; reflexivity.
    + rewrite Hty in Ea. discriminate Ea.
  - destruct (eq_str (getattr item "type" (VStr "unknown")) "message") eqn:Em.
    + eexists. split; [reflexivity|]. split; intros Hty.
      * rewrite Hty in Ea. discriminate Ea.
      * cbn. unfold getattr. repeat split; intros ->; reflexivity.
    + eexists. split; [reflexivity|]. split; intros Hty.
      * rewrite Hty in Ea. discriminate Ea.
      * rewrite Hty in Em. discriminate Em.
Qed.

(** C4, amended: on an item-added or item-done event that carries an item,
    a workflow-action item is normalized with status ["unknown"] when it
    has no status, action id ["unknown"] when it has no action id and
    previous action id [None] when it has none; a message item is
    normalized with id ["N/A"] when it has no id and role ["unknown"] when
    it has no role, and its data has no status. *)
Theorem item_defaults ev item (added : bool) :
  lookup_attr ev "type"
  = Some (VStr (if added then RESPONSE_OUTPUT_ITEM_ADDED
                else RESPONSE_OUTPUT_ITEM_DONE)) ->
  lookup_attr ev "item" = Some item ->
  truthy item = true ->
  exists s,
    process_stream_event ev = Ok (Some s) /\
    (getattr item "type" (VStr "unknown") = VStr "workflow_action" ->
     event s = (if added then "action_started" else "action_completed") /\
     (lookup_attr item "status" = None ->
      assoc "status" (data s) = Some (JVal (VStr "unknown"))) /\
     (lookup_attr item "action_id" = None ->
      assoc "action_id" (data s) = Some (JVal (VStr "unknown"))) /\
     (lookup_attr item "previous_action_id" = None ->
      assoc "previous_action_id" (data s) = Some (JVal VNone))) /\
    (getattr item "type" (VStr "unknown") = VStr "message" ->
     event s = (if added then "message_started" else "message_done") /\
     (lookup_attr item "id" = None ->
      assoc "id" (data s) = Some (JVal (VStr "N/A"))) /\
     (lookup_attr item "role" = None ->
      assoc "role" (data s) = Some (JVal (VStr "unknown"))) /\
     assoc "status" (data s) = None).
Proof.
  intros Hk Hi Ht. unfold process_stream_event.
  rewrite (attr_type _ Hk).
  destruct added; cbn [rbind];
    [ change (eq_str (VStr RESPONSE_OUTPUT_ITEM_ADDED)
                     RESPONSE_OUTPUT_TEXT_DONE) with false;
      change (eq_str (VStr RESPONSE_OUTPUT_ITEM_ADDED)
                     RESPONSE_OUTPUT_TEXT_DELTA) with false;
      change (eq_str (VStr RESPONSE_OUTPUT_ITEM_ADDED)
                     RESPONSE_OUTPUT_ITEM_ADDED) with true
    | change (eq_str (VStr RESPONSE_OUTPUT_ITEM_DONE)
                     RESPONSE_OUTPUT_TEXT_DONE) with false;
      change (eq_str (VStr RESPONSE_OUTPUT_ITEM_DONE)
                     RESPONSE_OUTPUT_TEXT_DELTA) with false;
      change (eq_str (VStr RESPONSE_OUTPUT_ITEM_DONE)
                     RESPONSE_OUTPUT_ITEM_ADDED) with false;
      change (eq_str (VStr RESPONSE_OUTPUT_ITEM_DONE)
                     RESPONSE_OUTPUT_ITEM_DONE) with true ];
    cbv iota;
    match goal with
    | |- context [item_event ?a ?m ?o ev] =>
        destruct (@item_event_defaults a m o ev item Hi Ht) as [s [-> Hs]]
    end;
    exists s; (split; [reflexivity | exact Hs]).
Qed.

Lemma item_defaults_witness :
  exists s,
    process_stream_event (item_added bare_message_item) = Ok (Some s) /\
    event s = "message_started" /\
    assoc "id" (data s) = Some (JVal (VStr "N/A")).
Proof.
  destruct (@item_defaults (item_added bare_message_item)
                           bare_message_item true)
    as [s [Hs [_ Hm]]]; try reflexivity.
  exists s. split; [exact Hs|].
  destruct (Hm eq_refl) as [Hn [Hid _]].
  split; [exact Hn | apply Hid; reflexivity].
Defined.

(** ** The outward events of a request *)

Lemma yielded_map_Yield l : yielded (map Yield l) = l.
Proof.
  induction l as [|e l IH]; simpl; [reflexivity|]. now rewrite IH.
Qed.

Lemma yielded_app t t' : yielded (t ++ t') = yielded t ++ yielded t'.
Proof. apply flat_map_app. Qed.

Lemma generator_outcome_raise remote conversation query e :
  generator_outcome remote conversation query = Raise e ->
  is_exception e = false.
Proof.
  unfold generator_outcome, passes.
  destruct (remote_delete remote conversation) as [u|e'];
    [|destruct (is_exception e') eqn:E'];
    try (destruct (stream_failure remote conversation query) as [e0|];
         [destruct (is_exception e0) eqn:E0|]);
    intros H; try discriminate H; injection H as <-; assumption.
Qed.

Lemma run_sync_generator_events remote query :
  run_sync_generator remote query
  = map Some (outward_events remote query) ++ completion remote query.
Proof.
  unfold run_sync_generator, outward_events, completion, ordinary_failures.
  destruct (remote_create remote) as [conversation|e] eqn:Hc.
  - rewrite (stream_agent_response_created _ _ Hc).
    destruct (generator_outcome remote conversation query) as [[]|e] eqn:G.
    + reflexivity.
    + rewrite (generator_outcome_raise _ _ _ G). cbn [caught].
      rewrite (generator_outcome_raise _ _ _ G).
      now rewrite !app_nil_r.
  - rewrite (stream_agent_response_not_created _ _ Hc). cbn [caught].
    destruct (is_exception e); reflexivity.
Qed.

Lemma completion_cases remote query :
  completion remote query = [None] \/ completion remote query = [].
Proof.
  unfold completion. destruct (ordinary_failures remote query); auto.
Qed.

Lemma outward_events_created remote query conversation :
  remote_create remote = Ok conversation ->
  outward_events remote query
  = conversation_created conversation
      :: streamed remote conversation query
      ++ cleanup_events remote conversation.
Proof.
  intros Hc. unfold outward_events.
  rewrite (stream_agent_response_created _ _ Hc).
  assert (Y : yielded
                ([ConversationsCreate;
                  Yield (conversation_created conversation);
                  ResponsesCreate conversation query]
                   ++ map Yield (streamed remote conversation query)
                   ++ [ConversationsDelete conversation]
                   ++ map Yield (cleanup_events remote conversation))
              = conversation_created conversation
                  :: streamed remote conversation query
                  ++ cleanup_events remote conversation).
  { cbn [app yielded flat_map].
    change (flat_map _ ?t) with (yielded t).
    rewrite yielded_app, yielded_map_Yield.
    cbn [app yielded flat_map].
    change (flat_map _ ?t) with (yielded t).
    now rewrite yielded_map_Yield. }
  rewrite Y.
  destruct (generator_outcome remote conversation query) as [[]|e] eqn:G;
    [reflexivity|].
  cbn [caught]. rewrite (generator_outcome_raise _ _ _ G).
  now rewrite app_nil_r.
Qed.

Lemma outward_events_not_created remote query e :
  remote_create remote = Raise e ->
  outward_events remote query = caught (Some e).
Proof.
  intros Hc. unfold outward_events.
  rewrite (stream_agent_response_not_created _ _ Hc). reflexivity.
Qed.

Lemma caught_names failure s :
  In s (caught failure) -> In (event s) normalizer_names.
Proof.
  unfold caught. destruct failure as [e|]; [|intros []].
  destruct (is_exception e); [|intros []].
  intros [<- | []]. cbn. repeat (first [left; reflexivity | right]).
Qed.

Lemma normalized_names events ending s :
  In s (fst (normalized events ending)) -> In (event s) normalizer_names.
Proof.
  induction events as [|ev rest IH]; simpl; [tauto|].
  destruct (process_stream_event ev) as [[s'|]|e] eqn:E; simpl.
  - destruct (normalized rest ending) as [l r]. simpl in *.
    intros [<- | H]; [exact (process_stream_event_names _ E) | auto].
  - exact IH.
  - tauto.
Qed.

Ltac pick_name :=
  cbn; repeat (first [left; reflexivity | right]).

Lemma streamed_names remote conversation query s :
  In s (streamed remote conversation query) ->
  In (event s) normalizer_names.
Proof.
  unfold streamed.
  destruct (remote_responses remote conversation query) as [st|e].
  - pose proof (@normalized_names (stream_events st) (stream_end st) s) as N.
    destruct (normalized (stream_events st) (stream_end st)) as [l r].
    cbn [fst] in N. intros H. apply in_app_or in H.
    destruct H as [H|H]; [exact (N H) | exact (caught_names _ _ H)].
  - apply caught_names.
Qed.

Lemma outward_events_names remote query s :
  In s (outward_events remote query) -> In (event s) outward_names.
Proof.
  destruct (remote_create remote) as [conversation|e] eqn:Hc.
  - rewrite (outward_events_created _ _ Hc).
    intros [<- | H]; [pick_name|].
    apply in_app_or in H. destruct H as [H|H].
    + right. right. exact (streamed_names _ _ _ _ H).
    + unfold cleanup_events in H.
      destruct (remote_delete remote conversation); simpl in H; [|tauto].
      destruct H as [<- | []]. pick_name.
  - rewrite (outward_events_not_created _ _ Hc).
    intros H. right. right. exact (caught_names _ _ H).
Qed.

Lemma in_items_event remote query e :
  In (Some e) (run_sync_generator remote query) ->
  In e (outward_events remote query).
Proof.
  intros H. rewrite run_sync_generator_events in H.
  apply in_app_or in H. destruct H as [H | H].
  - apply in_map_iff in H. destruct H as [e' [E H]]. now injection E as ->.
  - destruct (completion_cases remote query) as [C | C]; rewrite C in H.
    + destruct H as [H | []]. discriminate H.
    + destruct H.
Qed.

Lemma run_sync_generator_well_named remote query :
  well_named (run_sync_generator remote query).
Proof.
  intros e H. apply in_items_event in H.
  exact (outward_events_names _ _ _ H).
Qed.

(** ** The bridge *)

Lemma consume_finished c x : finished c = true -> consume c x = c.
Proof.
  unfold finished, consume.
  destruct (phase_of c); [discriminate | reflexivity ..].
Qed.

Lemma fold_consume_finished l c :
  finished c = true -> fold_left consume l c = c.
Proof.
  induction l as [|x l IH]; simpl; intros F; [reflexivity|].
  rewrite (consume_finished _ _ F). auto.
Qed.

(** The queue never loses or reorders: the items are those already taken,
    those in the queue and those still to put, in this order, and the loop
    is where taking the items one by one leads. *)
Lemma reachable_invariant items b :
  reachable items b ->
  exists taken,
    items = taken ++ event_queue b ++ pending b /\
    loop b = fold_left consume taken consumer_start.
Proof.
  induction 1 as [|b b' _ [taken [Hi Hl]] Hs].
  - exists []. split; reflexivity.
  - destruct Hs; simpl in *.
    + exists taken. split; [|exact Hl]. rewrite Hi, <- app_assoc. reflexivity.
    + exists taken. auto.
    + exists (taken ++ [x]). split.
      * rewrite <- app_assoc. exact Hi.
      * rewrite fold_left_app. simpl. now rewrite Hl.
Qed.

Lemma finished_is_transport items b :
  reachable items b -> finished (loop b) = true -> loop b = transport items.
Proof.
  intros Hr Hf. destruct (reachable_invariant Hr) as [taken [Hi Hl]].
  unfold transport. rewrite Hi, fold_left_app, <- Hl.
  symmetry. now apply fold_consume_finished.
Qed.

Lemma steps_trans b1 b2 b3 : steps b1 b2 -> steps b2 b3 -> steps b1 b3.
Proof.
  induction 1; [auto|]. intros. eapply steps_cons; eauto.
Qed.

Lemma reachable_steps items b b' :
  reachable items b -> steps b b' -> reachable items b'.
Proof.
  intros Hr Hs. induction Hs; [assumption|].
  apply IHHs. eapply reach_step; eauto.
Qed.

Lemma worker_runs p q c : steps (mkBridge p q c) (mkBridge [] (q ++ p) c).
Proof.
  revert q. induction p as [|x p IH]; intros q.
  - rewrite app_nil_r. constructor.
  - eapply steps_cons; [apply step_put|].
    replace (q ++ x :: p) with ((q ++ [x]) ++ p)
      by (rewrite <- app_assoc; reflexivity).
    apply IH.
Qed.

Lemma loop_runs q c :
  exists q', steps (mkBridge [] q c) (mkBridge [] q' (fold_left consume q c)).
Proof.
  revert c. induction q as [|x q IH]; intros c.
  - exists []. constructor.
  - destruct (finished c) eqn:F.
    + exists (x :: q). rewrite fold_consume_finished by exact F. constructor.
    + destruct (IH (consume c x)) as [q' Hq]. exists q'.
      eapply steps_cons; [|exact Hq]. apply step_get.
      unfold finished in F. destruct (phase_of c); congruence.
Qed.

(** From every state the request can run on until the loop has handled
    every item. *)
Lemma can_reach_transport items b :
  reachable items b -> exists b', steps b b' /\ loop b' = transport items.
Proof.
  intros Hr. destruct (reachable_invariant Hr) as [taken [Hi Hl]].
  destruct b as [p q c]; cbn [loop event_queue pending] in *.
  destruct (loop_runs (q ++ p) c) as [q' Hq].
  eexists. split; [eapply steps_trans; [apply worker_runs | exact Hq]|].
  cbn [loop]. unfold transport. rewrite Hl, Hi, !fold_left_app. reflexivity.
Qed.

Lemma completion_signal_finishes l c :
  finished (fold_left consume (l ++ [None]) c) = true.
Proof.
  rewrite fold_left_app. simpl.
  generalize (fold_left consume l c). intros c'.
  unfold consume, finished.
  destruct (phase_of c') eqn:E; cbn; rewrite ?E; reflexivity.
Qed.

(** *** What [json.dumps] raises *)

Lemma json_value_raises v x :
  json_value v = Raise x -> is_exception x = true.
Proof.
  destruct v as [| [] | n | s | cls shown attrs]; simpl; intros H;
    try discriminate H. now injection H as <-.
Qed.

Lemma json_members_raises {A} (dump : A -> result string) d x :
  (forall v x, dump v = Raise x -> is_exception x = true) ->
  json_members dump d = Raise x -> is_exception x = true.
Proof.
  intros Hd. revert x.
  induction d as [|[k v] rest IH]; intros x; cbn [json_members].
  - discriminate.
  - unfold rbind at 1. destruct (dump v) as [s|x'] eqn:Ev.
    + destruct rest as [|kv rest']; [discriminate|].
      unfold rbind.
      destruct (json_members dump (kv :: rest')) as [m|x'] eqn:Em;
        [discriminate|].
      intros H. injection H as <-. exact (IH x' eq_refl).
    + intros H. injection H as <-. exact (Hd _ _ Ev).
Qed.

Lemma json_dict_raises {A} (dump : A -> result string) d x :
  (forall v x, dump v = Raise x -> is_exception x = true) ->
  json_dict dump d = Raise x -> is_exception x = true.
Proof.
  intros Hd. unfold json_dict, rbind.
  destruct (json_members dump d) as [m|x'] eqn:Em; [discriminate|].
  intros H. injection H as <-. exact (json_members_raises _ _ Hd Em).
Qed.

(** [json.dumps] only raises a [TypeError], which is an [Exception]. *)
Lemma json_dumps_raises d x :
  json_dumps d = Raise x -> is_exception x = true.
Proof.
  apply json_dict_raises. intros [v|u] x'; simpl.
  - apply json_value_raises.
  - apply json_dict_raises. apply json_value_raises.
Qed.

(** *** The final frame *)

Lemma error_frame_ok x : exists d, error_frame x = Ok (sse_frame "error" d).
Proof. eexists. reflexivity. Qed.

Lemma frame_not_done name d :
  In name outward_names -> sse_frame name d <> done_frame.
Proof.
  simpl. intros H.
  repeat (destruct H as [<- | H]; [discriminate|]). contradiction.
Qed.

Lemma not_in_snoc (f : string) fs name d :
  ~ In f fs -> f <> sse_frame name d -> ~ In f (fs ++ [sse_frame name d]).
Proof.
  intros Hn Hd H. apply in_app_or in H.
  destruct H as [H | [H | []]]; [auto | congruence].
Qed.

Lemma consume_terminal_frame_once c x :
  terminal_frame_once c ->
  (forall e, x = Some e -> In (event e) outward_names) ->
  terminal_frame_once (consume c x).
Proof.
  intros [[Hp Hn] | [Hp Hd]] Hx.
  - unfold consume. rewrite Hp. destruct x as [e|].
    + destruct (json_dumps (data e)) as [d|x] eqn:E.
      * left. cbn [phase_of frames]. split; [reflexivity|].
        apply not_in_snoc; [exact Hn|].
        intros H. symmetry in H. revert H. apply frame_not_done. auto.
      * rewrite (json_dumps_raises _ E).
        destruct (error_frame_ok x) as [d' ->]. right.
        cbn [phase_of frames]. split; [auto|].
        exists (frames c ++ [sse_frame "error" d']). split.
        -- rewrite <- app_assoc. reflexivity.
        -- apply not_in_snoc; [exact Hn|].
           intros H. symmetry in H. revert H. apply frame_not_done.
           pick_name.
    + right. cbn [phase_of frames]. split; [auto|].
      exists (frames c). auto.
  - rewrite consume_finished; [right; auto|].
    unfold finished. destruct Hp as [-> | ->]; reflexivity.
Qed.

Lemma fold_terminal_frame_once l c :
  terminal_frame_once c -> well_named l ->
  terminal_frame_once (fold_left consume l c).
Proof.
  revert c. induction l as [|x l IH]; simpl; intros c Hc Hw; [exact Hc|].
  apply IH.
  - apply consume_terminal_frame_once; [exact Hc|].
    intros e ->. apply Hw. left. reflexivity.
  - intros e He. apply Hw. right. exact He.
Qed.

Lemma reachable_terminal_frame_once items b :
  well_named items -> reachable items b -> terminal_frame_once (loop b).
Proof.
  intros Hw Hr. destruct (reachable_invariant Hr) as [taken [Hi ->]].
  apply fold_terminal_frame_once.
  - left. split; [reflexivity | simpl; tauto].
  - intros e He. apply Hw. rewrite Hi. apply in_or_app. auto.
Qed.

(** A request without an uncaught exception can run until the loop is
    left; once the loop is left, the final frame is the last frame and the
    only one of its kind; before, it has not been sent. *)
Lemma request_terminal_frame remote query b :
  request_reaches remote query b ->
  (ordinary_failures remote query = true ->
   exists b', steps b b' /\ finished (loop b') = true) /\
  (finished (loop b) = true ->
   (phase_of (loop b) = Completed \/ phase_of (loop b) = Aborted) /\
   exists pre, frames (loop b) = pre ++ [done_frame] /\ ~ In done_frame pre) /\
  (finished (loop b) = false -> ~ In done_frame (frames (loop b))).
Proof.
  intros Hr. unfold request_reaches in Hr.
  pose proof (reachable_terminal_frame_once
                (@run_sync_generator_well_named remote query) Hr) as T.
  split; [|split].
  - intros Ho. destruct (can_reach_transport Hr) as [b' [Hs Hl]].
    exists b'. split; [exact Hs|]. rewrite Hl. unfold transport.
    rewrite run_sync_generator_events. unfold completion. rewrite Ho.
    apply completion_signal_finishes.
  - intros F. destruct T as [[Hp _] | T]; [|exact T].
    unfold finished in F. rewrite Hp in F. discriminate F.
  - intros F. destruct T as [[_ Hn] | [Hp _]]; [exact Hn|].
    unfold finished in F. destruct Hp as [Hp | Hp]; rewrite Hp in F;
      discriminate F.
Qed.

(** When the worker ends without the completion signal and every payload
    can be serialized, the loop polls for ever: it is never left and the
    final frame is never sent. *)
Lemma fold_serializable evs c :
  phase_of c = Polling ->
  Forall serializable evs ->
  phase_of (fold_left consume (map Some evs) c) = Polling.
Proof.
  intros Hp H. revert c Hp.
  induction H as [|e evs [f Hf] _ IH]; intros c Hp; [exact Hp|].
  cbn [map fold_left]. apply IH.
  unfold consume. rewrite Hp. unfold frame_of, rbind in Hf.
  destruct (json_dumps (data e)); [reflexivity | discriminate Hf].
Qed.

Lemma dead_worker_never_ends remote query b :
  ordinary_failures remote query = false ->
  Forall serializable (outward_events remote query) ->
  request_reaches remote query b ->
  phase_of (loop b) = Polling /\ ~ In done_frame (frames (loop b)).
Proof.
  intros Ho Hs Hr.
  assert (P : phase_of (loop b) = Polling).
  { unfold request_reaches in Hr.
    destruct (reachable_invariant Hr) as [taken [Hi Hl]].
    rewrite run_sync_generator_events in Hi. unfold completion in Hi.
    rewrite Ho, app_nil_r in Hi.
    apply map_eq_app in Hi. destruct Hi as [l1 [l2 [Ho' [Ht _]]]].
    rewrite Hl, <- Ht. apply fold_serializable; [reflexivity|].
    rewrite Ho' in Hs. apply Forall_app in Hs. tauto. }
  split; [exact P|].
  apply (proj2 (proj2 (request_terminal_frame Hr))).
  unfold finished. now rewrite P.
Qed.

(** C1 as stated fails: when the create-conversation call raises an
    exception that is not an instance of [Exception], the worker thread
    ends without the completion signal, and the response never ends and
    never carries the final frame. *)
Lemma interrupted_request_has_no_terminal_frame :
  ~ exists b,
      request_reaches remote_create_interrupted "ping" b /\
      (finished (loop b) = true \/ In done_frame (frames (loop b))).
Proof.
  intros [b [Hr H]].
  destruct (@dead_worker_never_ends remote_create_interrupted "ping" b)
    as [P N]; [reflexivity | constructor | exact Hr |].
  destruct H as [F | D]; [|exact (N D)].
  unfold finished in F. rewrite P in F. discriminate F.
Qed.

(** C1, amended: every request to [POST /api/chat] in which every exception
    raised is an instance of [Exception], whatever the create-conversation
    call, the streaming and the delete-conversation call do, can always run
    until the response ends; the ended response has the frame
    [event: done\ndata: {}\n\n] as its last frame and nowhere else, and a
    response that has not ended has not sent it. *)
Theorem terminal_frame_guarantee remote query b :
  ordinary_failures remote query = true ->
  request_reaches remote query b ->
  (exists b', steps b b' /\ finished (loop b') = true) /\
  (finished (loop b) = true ->
   exists pre, frames (loop b) = pre ++ [done_frame] /\ ~ In done_frame pre) /\
  (finished (loop b) = false -> ~ In done_frame (frames (loop b))).
Proof.
  intros Ho Hr. destruct (request_terminal_frame Hr) as [H1 [H2 H3]].
  split; [exact (H1 Ho)|]. split; [|exact H3].
  intros F. exact (proj2 (H2 F)).
Qed.

Lemma terminal_frame_guarantee_witness :
  let b := bridge_start (run_sync_generator remote_stream_breaks "ping") in
  (exists b', steps b b' /\ finished (loop b') = true) /\
  (finished (loop b) = true ->
   exists pre, frames (loop b) = pre ++ [done_frame] /\ ~ In done_frame pre) /\
  (finished (loop b) = false -> ~ In done_frame (frames (loop b))).
Proof.
  apply (@terminal_frame_guarantee remote_stream_breaks "ping").
  - reflexivity.
  - apply reach_start.
Defined.

(** ** Scenarios of the specification *)

Example scenario_text_delta :
  process_stream_event
    (VObj "ResponseTextDeltaEvent" "d"
          [("type", VStr "response.output_text.delta"); ("delta", VStr "pong")])
  = Ok (Some (mkSse "text_delta" [("delta", JVal (VStr "pong"))])).
Proof. reflexivity. Qed.

(** Scenario A: a complete exchange. *)
Example scenario_ping :
  outward_events remote_ok "ping"
  = [conversation_created "conv_1";
     mkSse "response_status" [("status", JVal (VStr "created"));
                              ("response_id", JVal (VStr "resp_1"))];
     mkSse "text_delta" [("delta", JVal (VStr "pong"))];
     mkSse "text_done" [("text", JVal (VStr "pong"))];
     mkSse "response_status"
           [("status", JVal (VStr "completed"));
            ("usage", JDict [("input_tokens", VInt 1);
                             ("output_tokens", VInt 1)])];
     conversation_deleted "conv_1"]
  /\ phase_of (transport (run_sync_generator remote_ok "ping")) = Completed
  /\ length (frames (transport (run_sync_generator remote_ok "ping"))) = 7.
Proof. repeat split. Qed.

(** Scenario C: the stream raises after two events. *)
Example scenario_mid_stream_failure :
  outward_events remote_stream_breaks "ping"
  = [conversation_created "conv_1";
     mkSse "text_delta" [("delta", JVal (VStr "pong"))];
     mkSse "text_done" [("text", JVal (VStr "pong"))];
     error_event "Connection error.";
     conversation_deleted "conv_1"].
Proof. reflexivity. Qed.

(** An event the normalizer raises on ends the streaming: the exception is
    caught around the loop and the conversation is still deleted. *)
Example scenario_malformed_event :
  outward_events remote_malformed_event "ping"
  = [conversation_created "conv_1";
     error_event
       "'ResponseTextDoneEvent' object has no attribute 'text'";
     conversation_deleted "conv_1"].
Proof. reflexivity. Qed.

(** ** Cleanup *)

Lemma filter_delete_yields l : filter is_delete (map Yield l) = [].
Proof. induction l as [|e l IH]; simpl; auto. Qed.

(** C2: the delete-conversation call is made exactly once, for the
    conversation created, when the create-conversation call succeeds,
    however the streaming goes, and is never made when the
    create-conversation call fails. *)
Theorem cleanup_guarantee remote query :
  filter is_delete (fst (stream_agent_response remote query))
  = match remote_create remote with
    | Ok conversation => [ConversationsDelete conversation]
    | Raise _ => []
    end
  /\ delete_attempts (fst (stream_agent_response remote query))
     = match remote_create remote with
       | Ok _ => 1
       | Raise _ => 0
       end.
Proof.
  unfold delete_attempts.
  destruct (remote_create remote) as [conversation|e] eqn:Hc.
  - rewrite (stream_agent_response_created _ _ Hc). cbn [fst].
    rewrite !filter_app, !filter_delete_yields. split; reflexivity.
  - rewrite (stream_agent_response_not_created _ _ Hc). split; reflexivity.
Qed.

Example cleanup_after_broken_stream :
  delete_attempts (fst (stream_agent_response remote_stream_breaks "ping")) = 1.
Proof. reflexivity. Qed.

(** ** Failures of the remote calls *)

(** C5 as stated fails: a delete-conversation call that raises an
    exception that is not an instance of [Exception] is not swallowed: the
    exception leaves the generator, the worker thread ends without the
    completion signal, and the final frame is never sent. *)
Lemma interrupted_deletion_is_not_swallowed :
  snd (stream_agent_response remote_delete_interrupted "ping")
  = Raise KeyboardInterrupt /\
  forall b,
    request_reaches remote_delete_interrupted "ping" b ->
    finished (loop b) = false /\ ~ In done_frame (frames (loop b)).
Proof.
  split; [reflexivity|]. intros b Hr.
  destruct (@dead_worker_never_ends remote_delete_interrupted "ping" b)
    as [P N]; [reflexivity | | exact Hr |].
  - repeat constructor; eexists; reflexivity.
  - split; [|exact N]. unfold finished. now rewrite P.
Qed.

(** C5, amended: when the delete-conversation call raises an instance of
    [Exception], the exception is swallowed: the generator ends as the
    streaming alone makes it end; the outward events are
    [conversation_created] and the events of the streaming, none is named
    [conversation_deleted], and they are the events of the same request
    with a successful deletion less its [conversation_deleted], so no
    [error] event stands for the failed deletion; and when every exception
    raised in the request is an instance of [Exception], the response
    still ends with the final frame. *)
Theorem deletion_failure_isolated remote query conversation e b :
  remote_create remote = Ok conversation ->
  remote_delete remote conversation = Raise e ->
  is_exception e = true ->
  snd (stream_agent_response remote query)
  = passes (stream_failure remote conversation query) /\
  outward_events remote query
  = conversation_created conversation
      :: streamed remote conversation query /\
  (forall s, In s (outward_events remote query) ->
             event s <> "conversation_deleted") /\
  (forall remote',
      remote_create remote' = Ok conversation ->
      remote_responses remote' conversation query
      = remote_responses remote conversation query ->
      remote_delete remote' conversation = Ok tt ->
      outward_events remote' query
      = outward_events remote query ++ [conversation_deleted conversation]) /\
  (ordinary_failures remote query = true ->
   request_reaches remote query b ->
   (exists b', steps b b' /\ finished (loop b') = true) /\
   (finished (loop b) = true ->
    exists pre, frames (loop b) = pre ++ [done_frame] /\
                ~ In done_frame pre)).
Proof.
  intros Hc Hd He.
  assert (E : outward_events remote query
              = conversation_created conversation
                  :: streamed remote conversation query).
  { rewrite (outward_events_created _ _ Hc). unfold cleanup_events.
    rewrite Hd, app_nil_r. reflexivity. }
  split.
  { rewrite (stream_agent_response_created _ _ Hc). cbn [snd].
    unfold generator_outcome. now rewrite Hd, He. }
  split; [exact E|]. split; [|split].
  - rewrite E. intros s [<- | H]; [discriminate|].
    apply streamed_names in H. intros N. rewrite N in H. simpl in H.
    repeat (destruct H as [H|H]; [discriminate H|]). exact H.
  - intros remote' Hc' Hr' Hd'.
    rewrite (outward_events_created _ _ Hc'), E.
    unfold cleanup_events, streamed. rewrite Hd', Hr'. reflexivity.
  - intros Ho Hr. destruct (request_terminal_frame Hr) as [H1 [H2 _]].
    split; [exact (H1 Ho)|]. intros F. exact (proj2 (H2 F)).
Qed.

Lemma deletion_failure_isolated_witness :
  outward_events remote_delete_fails "ping"
  = conversation_created "conv_1" :: streamed remote_delete_fails "conv_1" "ping".
Proof.
  apply (@deletion_failure_isolated
           remote_delete_fails "ping" "conv_1"
           (mkExn "HttpResponseError" "Not found")
           (bridge_start (run_sync_generator remote_delete_fails "ping")));
    reflexivity.
Defined.




(** ** Delivery in order *)

Lemma somes_map_Some l : somes (map Some l) = l.
Proof.
  induction l as [|e l IH]; simpl; [reflexivity|]. now rewrite IH.
Qed.

Lemma somes_app l l' : somes (l ++ l') = somes l ++ somes l'.
Proof. apply flat_map_app. Qed.

Lemma consume_some_received c e :
  phase_of c = Polling -> received (consume c (Some e)) = received c ++ [e].
Proof.
  intros Hp. unfold consume. rewrite Hp.
  destruct (json_dumps (data e)) as [d|x]; [reflexivity|].
  destruct (is_exception x); [|reflexivity].
  destruct (error_frame _); reflexivity.
Qed.

Lemma consume_none_received c : received (consume c None) = received c.
Proof.
  unfold consume. destruct (phase_of c); reflexivity.
Qed.

(** What the loop has received is an initial part of the events among the
    items handed to it. *)
Lemma received_prefix items c :
  exists l rest,
    received (fold_left consume items c) = received c ++ l /\
    somes items = l ++ rest.
Proof.
  revert c. induction items as [|x items IH]; intros c.
  - exists [], []. simpl. now rewrite app_nil_r.
  - destruct (finished c) eqn:F.
    + exists [], (somes (x :: items)).
      rewrite fold_consume_finished by exact F. now rewrite app_nil_r.
    + assert (Hp : phase_of c = Polling).
      { unfold finished in F. destruct (phase_of c); congruence. }
      destruct (IH (consume c x)) as [l [rest [Hr Hs]]].
      cbn [fold_left]. destruct x as [e|].
      * exists (e :: l), rest. rewrite Hr, (@consume_some_received c e Hp).
        rewrite <- app_assoc. cbn. now rewrite <- Hs.
      * exists l, rest. rewrite Hr, consume_none_received. auto.
Qed.

(** While the loop polls, it has yielded one frame for each event received,
    in the same order. *)
Lemma frames_follow_received items c :
  Forall2 (fun e f => frame_of e = Ok f) (received c) (frames c) ->
  phase_of (fold_left consume items c) = Polling ->
  Forall2 (fun e f => frame_of e = Ok f)
          (received (fold_left consume items c))
          (frames (fold_left consume items c)).
Proof.
  revert c. induction items as [|x items IH]; intros c Hc Hp; [exact Hc|].
  cbn [fold_left] in *.
  destruct (finished (consume c x)) eqn:F.
  { rewrite fold_consume_finished in Hp by exact F.
    unfold finished in F. rewrite Hp in F. discriminate F. }
  apply IH; [|exact Hp].
  unfold consume in F |- *. destruct (phase_of c); try exact Hc.
  destruct x as [e|]; [|discriminate F].
  destruct (json_dumps (data e)) as [d|x] eqn:E.
  - cbn [received frames]. apply Forall2_app; [exact Hc|].
    constructor; [|constructor]. unfold frame_of. now rewrite E.
  - destruct (is_exception x); [|discriminate F].
    destruct (error_frame x); discriminate F.
Qed.

(** The whole run of the loop over the events and the completion signal. *)
Lemma transport_completed evs c :
  phase_of c = Polling ->
  (Forall serializable evs ->
   phase_of (fold_left consume (map Some evs ++ [None]) c) = Completed) /\
  (phase_of (fold_left consume (map Some evs ++ [None]) c) = Completed ->
   received (fold_left consume (map Some evs ++ [None]) c)
   = received c ++ evs /\
   exists fs,
     frames (fold_left consume (map Some evs ++ [None]) c)
     = frames c ++ fs ++ [done_frame] /\
     Forall2 (fun e f => frame_of e = Ok f) evs fs).
Proof.
  revert c. induction evs as [|e evs IH]; intros c Hp.
  - cbn [map app fold_left]. unfold consume. rewrite Hp. cbn.
    split; [reflexivity|]. intros _. split; [now rewrite app_nil_r|].
    exists []. split; [reflexivity | constructor].
  - cbn [map app fold_left].
    destruct (json_dumps (data e)) as [d|x] eqn:E.
    + assert (C : consume c (Some e)
                  = mkConsumer (received c ++ [e])
                               (frames c ++ [sse_frame (event e) d]) Polling).
      { unfold consume. now rewrite Hp, E. }
      rewrite C.
      destruct (IH (mkConsumer (received c ++ [e])
                               (frames c ++ [sse_frame (event e) d]) Polling)
                   eq_refl) as [IH1 IH2].
      split.
      * intros Hs. apply IH1. now inversion Hs.
      * intros Hc. destruct (IH2 Hc) as [Hr [fs [Hf Hfs]]].
        cbn [received frames] in Hr, Hf.
        split; [rewrite Hr, <- app_assoc; reflexivity|].
        exists (sse_frame (event e) d :: fs). split.
        -- rewrite Hf, <- app_assoc. reflexivity.
        -- constructor; [|exact Hfs]. unfold frame_of. now rewrite E.
    + assert (F : finished (consume c (Some e)) = true
                  /\ phase_of (consume c (Some e)) <> Completed).
      { unfold consume, finished. rewrite Hp, E.
        destruct (is_exception x); [destruct (error_frame x)|];
          cbn; split; congruence. }
      destruct F as [F N]. rewrite fold_consume_finished by exact F.
      split; [|intros Hc; contradiction].
      intros Hs. inversion Hs as [|? ? [f Hf] _]; subst.
      unfold frame_of in Hf. rewrite E in Hf. discriminate Hf.
Qed.

(** Nothing is lost on the way: the items of the worker are, in their
    order, those the loop has taken, those in the queue and those not yet
    put, and the events received are the events among the items taken. *)
Lemma reachable_conservation items b :
  reachable items b ->
  exists taken,
    items = taken ++ event_queue b ++ pending b /\
    received (loop b) = somes taken.
Proof.
  induction 1 as [|b b' _ [taken [Hi Hl]] Hs].
  - exists []. split; reflexivity.
  - destruct Hs as [x p q c | p c Hp | x p q c Hp];
      cbn [loop event_queue pending] in *.
    + exists taken. split; [|exact Hl]. rewrite Hi, <- app_assoc. reflexivity.
    + exists taken. auto.
    + exists (taken ++ [x]). split.
      * rewrite <- app_assoc. exact Hi.
      * rewrite somes_app, <- Hl. destruct x as [e|].
        -- exact (@consume_some_received c e Hp).
        -- rewrite consume_none_received. cbn. now rewrite app_nil_r.
Qed.

Lemma transport_prefix evs fs c :
  phase_of c = Polling ->
  Forall2 (fun e f => frame_of e = Ok f) evs fs ->
  fold_left consume (map Some evs) c
  = mkConsumer (received c ++ evs) (frames c ++ fs) Polling.
Proof.
  intros Hp H. revert c Hp.
  induction H as [|e f evs fs Hf _ IH]; intros c Hp.
  - cbn. rewrite !app_nil_r. destruct c. cbn in Hp. now subst.
  - cbn [map fold_left].
    assert (C : consume c (Some e)
                = mkConsumer (received c ++ [e]) (frames c ++ [f]) Polling).
    { unfold consume. rewrite Hp. unfold frame_of, rbind in Hf.
      destruct (json_dumps (data e)); [|discriminate Hf].
      now injection Hf as <-. }
    rewrite C, IH by reflexivity. cbn [received frames].
    now rewrite <- !app_assoc.
Qed.

Lemma serializable_frames evs :
  Forall serializable evs ->
  exists fs, Forall2 (fun e f => frame_of e = Ok f) evs fs.
Proof.
  induction 1 as [|e evs [f Hf] _ [fs IH]].
  - exists []. constructor.
  - exists (f :: fs). constructor; assumption.
Qed.

(** C8 as stated fails: when the payload of an outward event cannot be
    serialized, the events produced after it are never delivered.  Here
    five outward events are produced and, in every state of the request,
    the loop has received at most the first three. *)
Lemma unserializable_event_drops_the_rest :
  length (outward_events remote_unserializable "ping") = 5 /\
  forall b,
    request_reaches remote_unserializable "ping" b ->
    length (received (loop b)) <= 3.
Proof.
  split; [reflexivity|]. intros b Hr. unfold request_reaches in Hr.
  destruct (reachable_invariant Hr) as [taken [Hi Hl]].
  destruct (received_prefix (event_queue b ++ pending b) (loop b))
    as [l [rest [Hrec _]]].
  assert (T : fold_left consume (event_queue b ++ pending b) (loop b)
              = transport (run_sync_generator remote_unserializable "ping")).
  { unfold transport. rewrite Hi.
    rewrite (fold_left_app consume taken), <- Hl. reflexivity. }
  rewrite T in Hrec. apply (f_equal (@length _)) in Hrec.
  rewrite length_app in Hrec.
  change (length (received
                    (transport
                       (run_sync_generator remote_unserializable "ping"))))
    with 3 in Hrec.
  lia.
Qed.

(** C8, amended: when the payload of every outward event of a request can
    be serialized, then at every moment the outward events, in their order
    of production, are the events the loop of [event_generator] has
    received, followed by those in the queue and by those the worker has
    not put yet: none is reordered, merged with another or lost; each
    event received has been answered by its own frame; the loop is only
    ever left by the completion signal, and then it has received every
    outward event and the response is their frames, in order, followed by
    the final frame; and from every state the request can run on until
    every outward event is received and framed, in order. *)
Theorem bridge_delivers_in_order remote query b :
  Forall serializable (outward_events remote query) ->
  request_reaches remote query b ->
  (exists taken,
      map Some (outward_events remote query) ++ completion remote query
      = taken ++ event_queue b ++ pending b /\
      received (loop b) = somes taken) /\
  (exists rest, outward_events remote query = received (loop b) ++ rest) /\
  (phase_of (loop b) = Polling ->
   Forall2 (fun e f => frame_of e = Ok f)
           (received (loop b)) (frames (loop b))) /\
  (finished (loop b) = true ->
   phase_of (loop b) = Completed /\
   received (loop b) = outward_events remote query /\
   exists fs,
     frames (loop b) = fs ++ [done_frame] /\
     Forall2 (fun e f => frame_of e = Ok f) (outward_events remote query) fs) /\
  (exists b' fs,
      steps b b' /\
      received (loop b') = outward_events remote query /\
      Forall2 (fun e f => frame_of e = Ok f) (outward_events remote query) fs /\
      (frames (loop b') = fs \/ frames (loop b') = fs ++ [done_frame])).
Proof.
  intros Hs Hr. unfold request_reaches in Hr.
  destruct (reachable_invariant Hr) as [taken [Hi Hl]].
  pose proof (@transport_completed (outward_events remote query)
                                   consumer_start eq_refl) as [T1 T2].
  destruct (serializable_frames Hs) as [fs0 Hfs0].
  pose proof (transport_prefix consumer_start eq_refl Hfs0) as TP.
  cbn [received frames consumer_start app] in TP.
  assert (TI : transport (run_sync_generator remote query)
               = fold_left consume (completion remote query)
                   (mkConsumer (outward_events remote query) fs0 Polling)).
  { unfold transport.
    now rewrite run_sync_generator_events, fold_left_app, TP. }
  split; [|split; [|split; [|split]]].
  - destruct (reachable_conservation Hr) as [taken' [Hi' Hl']].
    exists taken'. rewrite <- run_sync_generator_events. auto.
  - destruct (received_prefix taken consumer_start) as [l [rest [Hrec Hs']]].
    rewrite <- Hl in Hrec. cbn [received consumer_start app] in Hrec.
    exists (rest ++ somes (event_queue b ++ pending b)).
    rewrite Hrec, app_assoc, <- Hs', <- somes_app, <- Hi.
    rewrite run_sync_generator_events, somes_app, somes_map_Some.
    destruct (completion_cases remote query) as [C | C]; rewrite C;
      cbn; now rewrite app_nil_r.
  - intros Hp. rewrite Hl in *. apply frames_follow_received; [|exact Hp].
    constructor.
  - intros F. pose proof (finished_is_transport Hr F) as E.
    rewrite E in F |- *. clear E.
    destruct (completion_cases remote query) as [C | C].
    + unfold transport. rewrite run_sync_generator_events, C.
      pose proof (T1 Hs) as Hc. destruct (T2 Hc) as [R [fs [Hf Hfs]]].
      split; [exact Hc|]. split; [exact R|].
      exists fs. split; [exact Hf | exact Hfs].
    + rewrite TI, C in F. discriminate F.
  - destruct (can_reach_transport Hr) as [b' [Hb Hl']].
    destruct (completion_cases remote query) as [C | C].
    + pose proof (T1 Hs) as Hc. destruct (T2 Hc) as [R [fs [Hf Hfs]]].
      exists b', fs. rewrite Hl'. unfold transport.
      rewrite run_sync_generator_events, C.
      split; [exact Hb|]. split; [exact R|]. split; [exact Hfs|].
      right. exact Hf.
    + exists b', fs0. rewrite Hl', TI, C. cbn [fold_left received frames].
      split; [exact Hb|]. split; [reflexivity|]. split; [exact Hfs0|].
      left. reflexivity.
Qed.

Lemma bridge_delivers_in_order_witness :
  let b := bridge_start (run_sync_generator remote_ok "ping") in
  exists b' fs,
    steps b b' /\
    received (loop b') = outward_events remote_ok "ping" /\
    Forall2 (fun e f => frame_of e = Ok f) (outward_events remote_ok "ping") fs /\
    (frames (loop b') = fs \/ frames (loop b') = fs ++ [done_frame]).
Proof.
  apply (@bridge_delivers_in_order
           remote_ok "ping"
           (bridge_start (run_sync_generator remote_ok "ping"))).
  - repeat constructor; eexists; reflexivity.
  - apply reach_start.
Defined.

(* ================================================================= *)
(** * Further properties of the code *)

(** ** The normalizer, branch by branch *)

Ltac by_kind k :=
  unfold RESPONSE_OUTPUT_TEXT_DONE, RESPONSE_OUTPUT_TEXT_DELTA,
    RESPONSE_OUTPUT_ITEM_ADDED, RESPONSE_OUTPUT_ITEM_DONE, RESPONSE_CREATED,
    RESPONSE_IN_PROGRESS, RESPONSE_COMPLETED, RESPONSE_FAILED, ERROR in *;
  repeat match goal with
         | |- context [String.eqb k ?s] =>
             destruct (String.eqb_spec k s) as [-> | ?]; cbn
         end.

(** X1: the normalizer raises on an event exactly when the event has no
    [type], or is a text-done event without [text], a text-delta event
    without [delta], a response-created event without [response] or whose
    response has no [id], or a response-completed event without
    [response]. *)
Theorem normalizer_raises_iff ev :
  (exists e, process_stream_event ev = Raise e) <-> normalizer_raises ev = true.
Proof.
  unfold normalizer_raises, process_stream_event, attr, rbind.
  destruct (lookup_attr ev "type") as [ty|] eqn:Ht.
  - destruct ty as [| b | n | k | cls shown attrs];
      try (cbn; split; [intros [e He]; discriminate He | discriminate]).
    unfold direct_fields_present, hasattr. cbn [eq_str].
    by_kind k;
      repeat match goal with
             | |- context [lookup_attr ?o ?n] =>
                 destruct (lookup_attr o n); cbn
             end;
      cbn; split;
      solve [ intros [e He]; discriminate He
            | intros H; discriminate H
            | intros _; reflexivity
            | intros _; eexists; reflexivity ].
  - split; [reflexivity | intros _; eexists; reflexivity].
Qed.

(** X2: the normalizer returns nothing exactly on an item-added or
    item-done event whose [item] is absent or false ([None], an empty
    string, zero); any other event gives an outward event or raises. *)
Theorem normalizer_none_iff ev :
  process_stream_event ev = Ok None <->
  is_item_kind ev = true /\ truthy (getattr ev "item" VNone) = false.
Proof.
  unfold is_item_kind, process_stream_event, attr, rbind.
  destruct (lookup_attr ev "type") as [ty|] eqn:Ht.
  - destruct ty as [| b | n | k | cls shown attrs];
      try (cbn; split; [discriminate | intros [H _]; discriminate H]).
    cbn [eq_str]. by_kind k;
      try (unfold item_event;
           destruct (truthy (getattr ev "item" VNone));
           repeat match goal with
                  | |- context [if eq_str ?v ?t then _ else _] =>
                      destruct (eq_str v t)
                  end);
      repeat match goal with
             | |- context [lookup_attr ?o ?n] =>
                 destruct (lookup_attr o n); cbn
             end;
      split;
      solve [ intros H; discriminate H
            | intros [H1 H2]; discriminate
            | intros _; split; reflexivity
            | reflexivity ].
  - split; [discriminate | intros [H _]; discriminate H].
Qed.

(** X3: every outward event the normalizer returns bears one of its
    thirteen names; it is never named [conversation_created],
    [conversation_deleted] or [done]. *)
Theorem normalizer_vocabulary ev s :
  process_stream_event ev = Ok (Some s) ->
  In (event s) normalizer_names /\
  event s <> "conversation_created" /\
  event s <> "conversation_deleted" /\
  event s <> "done".
Proof.
  intros H. apply process_stream_event_names in H.
  split; [exact H|].
  repeat split; intros E; rewrite E in H; simpl in H;
    repeat (destruct H as [H|H]; [discriminate H|]); exact H.
Qed.

Lemma normalizer_vocabulary_witness :
  In "text_delta" normalizer_names /\ "text_delta" <> "done".
Proof.
  destruct (@normalizer_vocabulary
              text_delta_pong
              (mkSse "text_delta" [("delta", JVal (VStr "pong"))])
              eq_refl) as [H [_ [_ D]]].
  split; [exact H | exact D].
Defined.

(** X4: the payload of an outward event of the normalizer always has
    exactly the keys of its kind, in the same order, whatever fields the
    raw event lacks; and a [usage] dictionary is empty or has exactly the
    two token counters. *)
Theorem payload_shape ev s :
  process_stream_event ev = Ok (Some s) ->
  map fst (data s) = payload_keys s /\
  (forall u, assoc "usage" (data s) = Some (JDict u) ->
             u = [] \/ map fst u = ["input_tokens"; "output_tokens"]).
Proof.
  unfold process_stream_event, attr, rbind.
  destruct (lookup_attr ev "type") as [ty|] eqn:Ht; [|discriminate].
  assert (U : forall t,
             mkSse "unknown" [("type", JVal (VStr t))] = s ->
             map fst (data s) = payload_keys s /\
             (forall u, assoc "usage" (data s) = Some (JDict u) ->
                        u = [] \/ map fst u = ["input_tokens"; "output_tokens"])).
  { intros t <-. split; [reflexivity | discriminate]. }
  destruct ty as [| b | n | k | cls shown attrs];
    try (cbn; intros H; injection H as H; exact (U _ H)).
  cbn [eq_str]. clear U. revert s.
  by_kind k; intros s;
    try (unfold item_event;
         destruct (truthy (getattr ev "item" VNone));
         repeat match goal with
                | |- context [if eq_str ?v ?t then _ else _] =>
                    destruct (eq_str v t)
                end);
    repeat match goal with
           | |- context [lookup_attr ?o ?n] =>
               destruct (lookup_attr o n); cbn
           end;
    try discriminate;
    try destruct (hasattr _ "usage" && _);
    intros H; injection H as <-;
    (split; [reflexivity|]); cbn; intros u Hu;
    try discriminate Hu;
    injection Hu as <-; auto.
Qed.

Lemma payload_shape_witness :
  map fst (data (mkSse "action_started"
                       [("action_id", JVal (VStr "unknown"));
                        ("status", JVal (VStr "unknown"));
                        ("previous_action_id", JVal VNone)]))
  = ["action_id"; "status"; "previous_action_id"].
Proof.
  apply (@payload_shape (item_added bare_action_item)). reflexivity.
Defined.

(** ** The orchestrator, path by path *)

Lemma filter_call_yields l : filter is_call (map Yield l) = [].
Proof. induction l as [|e l IH]; simpl; auto. Qed.

(** X5: a run calls the service in a fixed order: it creates the
    conversation; if that succeeds it asks once for the response stream,
    with the id of that conversation and the query unchanged, and then
    deletes that same conversation once; if the creation fails there is no
    further call. *)
Theorem remote_call_order remote query :
  remote_calls (fst (stream_agent_response remote query))
  = match remote_create remote with
    | Ok conversation =>
        [ConversationsCreate; ResponsesCreate conversation query;
         ConversationsDelete conversation]
    | Raise _ => [ConversationsCreate]
    end.
Proof.
  unfold remote_calls.
  destruct (remote_create remote) as [conversation|e] eqn:Hc.
  - rewrite (stream_agent_response_created _ _ Hc). cbn [fst].
    rewrite !filter_app, !filter_call_yields. reflexivity.
  - rewrite (stream_agent_response_not_created _ _ Hc). reflexivity.
Qed.

Lemma count_named_app name l l' :
  count_named name (l ++ l') = count_named name l + count_named name l'.
Proof.
  unfold count_named. now rewrite filter_app, length_app.
Qed.

Lemma count_named_none name l :
  (forall s, In s l -> event s <> name) -> count_named name l = 0.
Proof.
  unfold count_named. induction l as [|s l IH]; intros H; [reflexivity|].
  simpl. destruct (String.eqb_spec (event s) name) as [E|_].
  - exfalso. apply (H s); [left; reflexivity | exact E].
  - apply IH. intros s' Hs'. apply H. right. exact Hs'.
Qed.

Lemma streamed_not_named remote conversation query name :
  ~ In name normalizer_names ->
  count_named name (streamed remote conversation query) = 0.
Proof.
  intros Hn. apply count_named_none. intros s Hs E.
  apply Hn. rewrite <- E. exact (streamed_names _ _ _ _ Hs).
Qed.

Ltac not_a_normalizer_name :=
  simpl; intros H; repeat (destruct H as [H|H]; [discriminate H|]); exact H.

(** X6: when the conversation is created, the outward events begin with
    [conversation_created], which occurs exactly once; an event named
    [conversation_deleted] occurs once, as the last event, when the
    deletion succeeds, and not at all when it raises. *)
Theorem conversation_events_bracket remote query conversation :
  remote_create remote = Ok conversation ->
  hd_error (outward_events remote query)
  = Some (conversation_created conversation) /\
  count_named "conversation_created" (outward_events remote query) = 1 /\
  count_named "conversation_deleted" (outward_events remote query)
  = match remote_delete remote conversation with
    | Ok _ => 1
    | Raise _ => 0
    end /\
  (forall u, remote_delete remote conversation = Ok u ->
             exists before,
               outward_events remote query
               = before ++ [conversation_deleted conversation]).
Proof.
  intros Hc. rewrite (outward_events_created _ _ Hc).
  split; [reflexivity|].
  change (conversation_created conversation :: ?l)
    with ([conversation_created conversation] ++ l).
  rewrite !count_named_app.
  rewrite !streamed_not_named by not_a_normalizer_name.
  unfold cleanup_events.
  destruct (remote_delete remote conversation) as [u|e].
  - repeat split. intros _ _.
    exists ([conversation_created conversation]
              ++ streamed remote conversation query).
    now rewrite <- app_assoc.
  - repeat split. intros u Hu. discriminate Hu.
Qed.

Lemma conversation_events_bracket_witness :
  count_named "conversation_deleted" (outward_events remote_delete_fails "ping")
  = 0.
Proof.
  apply (@conversation_events_bracket remote_delete_fails "ping" "conv_1").
  reflexivity.
Defined.

Lemma normalized_each events ending :
  Forall normalizes events ->
  normalized events ending = (normalize_each events, ending).
Proof.
  induction 1 as [|ev rest [r Hr] _ IH]; [reflexivity|].
  unfold normalize_each in *. simpl. rewrite Hr, IH.
  destruct r; reflexivity.
Qed.

Lemma normalized_cut l1 ev l2 ending e :
  Forall normalizes l1 ->
  process_stream_event ev = Raise e ->
  normalized (l1 ++ ev :: l2) ending = (normalize_each l1, Some e).
Proof.
  intros Hl He. induction Hl as [|ev' rest [r Hr] _ IH].
  - simpl. now rewrite He.
  - unfold normalize_each in *. simpl. rewrite Hr, IH.
    destruct r; reflexivity.
Qed.

Lemma normalized_length events ending :
  length (fst (normalized events ending)) <= length events.
Proof.
  induction events as [|ev rest IH]; simpl; [lia|].
  destruct (process_stream_event ev) as [[s|]|e]; simpl; try lia.
  destruct (normalized rest ending) as [l r]. simpl in *. lia.
Qed.

(** What the normalizer raises is an [AttributeError], an instance of
    [Exception]. *)
Lemma process_stream_event_raises ev e :
  process_stream_event ev = Raise e -> is_exception e = true.
Proof.
  unfold process_stream_event, attr, rbind.
  destruct (lookup_attr ev "type") as [ty|] eqn:Ht.
  - destruct ty as [| b | n | k | cls shown attrs];
      try (cbn; discriminate).
    cbn [eq_str]. revert e.
    by_kind k; intros e;
      repeat match goal with
             | |- context [lookup_attr ?o ?n] =>
                 destruct (lookup_attr o n); cbn
             end;
      intros H; try discriminate H; now injection H as <-.
  - intros H. now injection H as <-.
Qed.

(** X7: when the conversation is created and the normalizer raises on none
    of the raw events, the outward events are [conversation_created], the
    outward events of the raw events in their order, then, when the
    iteration ends by raising, one [error] event with the text of the
    exception if it is an instance of [Exception] and nothing if it is
    not, and [conversation_deleted] when the deletion succeeds. *)
Theorem stream_outcome remote query conversation events ending :
  remote_create remote = Ok conversation ->
  remote_responses remote conversation query = Ok (mkStream events ending) ->
  Forall normalizes events ->
  outward_events remote query
  = conversation_created conversation
      :: normalize_each events
      ++ match ending with
         | Some e =>
             if is_exception e then [error_event (str_exn e)] else []
         | None => []
         end
      ++ match remote_delete remote conversation with
         | Ok _ => [conversation_deleted conversation]
         | Raise _ => []
         end.
Proof.
  intros Hc Hr Hn. rewrite (outward_events_created _ _ Hc).
  unfold streamed, cleanup_events, caught.
  rewrite Hr. cbn [stream_events stream_end].
  rewrite (normalized_each _ Hn). now rewrite <- app_assoc.
Qed.

Lemma stream_outcome_witness :
  outward_events remote_stream_breaks "ping"
  = conversation_created "conv_1"
      :: normalize_each [text_delta_pong; text_done_pong]
      ++ [error_event "Connection error."]
      ++ [conversation_deleted "conv_1"].
Proof.
  apply (@stream_outcome remote_stream_breaks "ping" "conv_1"
                         [text_delta_pong; text_done_pong]
                         (Some (mkExn "APIConnectionError" "Connection error.")));
    try reflexivity.
  repeat constructor; eexists; reflexivity.
Defined.

(** X8: when the normalizer raises on a raw event, the streaming stops
    there: the outward events are those of the raw events before it, then
    one [error] event with the text of the exception, then the cleanup;
    the raw events after it, and the way the iteration would have ended,
    leave no trace. *)
Theorem normalizer_failure_cuts_stream
        remote query conversation before ev after ending e :
  remote_create remote = Ok conversation ->
  remote_responses remote conversation query
  = Ok (mkStream (before ++ ev :: after) ending) ->
  Forall normalizes before ->
  process_stream_event ev = Raise e ->
  outward_events remote query
  = conversation_created conversation
      :: normalize_each before
      ++ [error_event (str_exn e)]
      ++ match remote_delete remote conversation with
         | Ok _ => [conversation_deleted conversation]
         | Raise _ => []
         end.
Proof.
  intros Hc Hr Hn He. rewrite (outward_events_created _ _ Hc).
  unfold streamed, cleanup_events, caught.
  rewrite Hr. cbn [stream_events stream_end].
  rewrite (@normalized_cut before ev after ending e Hn He).
  rewrite (process_stream_event_raises _ He). now rewrite <- app_assoc.
Qed.

Lemma normalizer_failure_cuts_stream_witness :
  outward_events remote_malformed_event "ping"
  = conversation_created "conv_1"
      :: normalize_each []
      ++ [error_event "'ResponseTextDoneEvent' object has no attribute 'text'"]
      ++ [conversation_deleted "conv_1"].
Proof.
  apply (@normalizer_failure_cuts_stream
           remote_malformed_event "ping" "conv_1"
           [] text_done_without_text [text_delta_pong] None
           (AttributeError text_done_without_text "text"));
    try reflexivity.
  constructor.
Defined.

(** X9: when creating the response stream itself raises, the outward
    events are [conversation_created], then one [error] event with the text
    of the exception if it is an instance of [Exception] and nothing if it
    is not, and [conversation_deleted] when the deletion succeeds: the
    delete-conversation call is still made, once. *)
Theorem responses_create_failure remote query conversation e :
  remote_create remote = Ok conversation ->
  remote_responses remote conversation query = Raise e ->
  outward_events remote query
  = conversation_created conversation
      :: (if is_exception e then [error_event (str_exn e)] else [])
      ++ match remote_delete remote conversation with
         | Ok _ => [conversation_deleted conversation]
         | Raise _ => []
         end
  /\ delete_attempts (fst (stream_agent_response remote query)) = 1.
Proof.
  intros Hc Hr. split.
  - rewrite (outward_events_created _ _ Hc).
    unfold streamed, cleanup_events, caught. now rewrite Hr.
  - rewrite (stream_agent_response_created _ _ Hc). cbn [fst].
    unfold delete_attempts.
    rewrite !filter_app, !filter_delete_yields. reflexivity.
Qed.

Lemma responses_create_failure_witness :
  outward_events remote_responses_fail "ping"
  = [conversation_created "conv_1"; error_event "Unknown agent";
     conversation_deleted "conv_1"].
Proof.
  apply (@responses_create_failure
           remote_responses_fail "ping" "conv_1"
           (mkExn "BadRequestError" "Unknown agent")); reflexivity.
Defined.

(** X10: a request never produces more outward events than the stream has
    raw events, apart from [conversation_created], at most one [error]
    event of the orchestrator and [conversation_deleted]. *)
Theorem no_amplification remote query conversation st :
  remote_create remote = Ok conversation ->
  remote_responses remote conversation query = Ok st ->
  length (outward_events remote query) <= length (stream_events st) + 3.
Proof.
  intros Hc Hr. rewrite (outward_events_created _ _ Hc).
  unfold streamed, cleanup_events. rewrite Hr.
  pose proof (normalized_length (stream_events st) (stream_end st)) as L.
  destruct (normalized (stream_events st) (stream_end st)) as [l r].
  cbn [fst] in L. cbn [length]. rewrite !length_app. unfold caught.
  destruct r as [e|]; [destruct (is_exception e)|];
    destruct (remote_delete remote conversation); cbn [length]; lia.
Qed.

Lemma no_amplification_witness :
  length (outward_events remote_ok "ping") <= length (stream_events ping_stream) + 3.
Proof.
  apply (@no_amplification remote_ok "ping" "conv_1" ping_stream);
    reflexivity.
Defined.

(** ** The bridge under every schedule *)

(** X11: the items the worker thread puts on the queue are the outward
    events followed by the completion signal, put once and last, when every
    exception raised in the request is an instance of [Exception]; when
    one is not, the worker puts the events yielded so far and no
    completion signal at all. *)
Theorem worker_signals_completion remote query :
  (In None (run_sync_generator remote query) <->
   ordinary_failures remote query = true) /\
  run_sync_generator remote query
  = map Some (outward_events remote query)
      ++ (if ordinary_failures remote query then [None] else []).
Proof.
  split; [|exact (run_sync_generator_events remote query)].
  rewrite run_sync_generator_events. unfold completion.
  destruct (ordinary_failures remote query); split; intros H.
  - reflexivity.
  - apply in_or_app. right. left. reflexivity.
  - apply in_app_or in H. destruct H as [H | []].
    apply in_map_iff in H. destruct H as [e [E _]]. discriminate E.
  - discriminate H.
Qed.

(** X14: when an exception that is not an instance of [Exception] is
    raised in a request whose payloads can all be serialized, the polling
    loop is never left: in no state of the request has the response ended
    or the final frame been sent. *)
Theorem uncaught_exception_leaves_response_open remote query b :
  ordinary_failures remote query = false ->
  Forall serializable (outward_events remote query) ->
  request_reaches remote query b ->
  phase_of (loop b) = Polling /\ ~ In done_frame (frames (loop b)).
Proof.
  intros Ho Hs Hr. exact (dead_worker_never_ends Ho Hs Hr).
Qed.

Lemma uncaught_exception_leaves_response_open_witness :
  exists b,
    steps (bridge_start (run_sync_generator remote_stream_interrupted "ping")) b /\
    received (loop b)
    = [conversation_created "conv_1";
       mkSse "text_delta" [("delta", JVal (VStr "pong"))];
       conversation_deleted "conv_1"] /\
    phase_of (loop b) = Polling /\ ~ In done_frame (frames (loop b)).
Proof.
  destruct (@can_reach_transport
              (run_sync_generator remote_stream_interrupted "ping")
              (bridge_start (run_sync_generator remote_stream_interrupted "ping"))
              (reach_start _)) as [b [Hs Hl]].
  exists b. split; [exact Hs|]. split; [rewrite Hl; reflexivity|].
  apply (@uncaught_exception_leaves_response_open
           remote_stream_interrupted "ping" b).
  - reflexivity.
  - repeat constructor; eexists; reflexivity.
  - exact (reachable_steps (reach_start _) Hs).
Defined.

(** X12: the response does not depend on how the worker thread and the
    polling loop interleave: any two ended states of a request have
    received the same events and sent the same frames, those of the loop
    taking the items one after the other. *)
Theorem response_independent_of_schedule remote query b1 b2 :
  request_reaches remote query b1 ->
  request_reaches remote query b2 ->
  finished (loop b1) = true ->
  finished (loop b2) = true ->
  loop b1 = loop b2 /\
  loop b1 = transport (run_sync_generator remote query).
Proof.
  intros H1 H2 F1 F2. unfold request_reaches in *.
  rewrite (finished_is_transport H1 F1), (finished_is_transport H2 F2).
  split; reflexivity.
Qed.

Lemma response_independent_of_schedule_witness :
  exists b,
    steps (bridge_start (run_sync_generator remote_ok "ping")) b /\
    loop b = transport (run_sync_generator remote_ok "ping").
Proof.
  destruct (@can_reach_transport
              (run_sync_generator remote_ok "ping")
              (bridge_start (run_sync_generator remote_ok "ping"))
              (reach_start _)) as [b [Hs Hl]].
  exists b. split; [exact Hs|].
  assert (R : request_reaches remote_ok "ping" b).
  { exact (reachable_steps (reach_start _) Hs). }
  assert (F : finished (loop b) = true).
  { rewrite Hl. reflexivity. }
  exact (proj2 (@response_independent_of_schedule
                  remote_ok "ping" b b R R F F)).
Defined.

Lemma step_finished b b' :
  step b b' -> finished (loop b) = true -> loop b' = loop b.
Proof.
  intros Hs F. destruct Hs as [x p q c | p c Hp | x p q c Hp];
    cbn [loop] in *; try reflexivity.
  unfold finished in F. rewrite Hp in F. discriminate F.
Qed.

(** X13: once the loop is left the response is over: whatever the worker
    still does, no event is taken from the queue and no frame is sent any
    more. *)
Theorem ended_response_is_stable b b' :
  steps b b' -> finished (loop b) = true -> loop b' = loop b.
Proof.
  induction 1 as [b | b b1 b2 Hs _ IH]; intros F; [reflexivity|].
  pose proof (step_finished Hs F) as E.
  rewrite IH by (rewrite E; exact F). exact E.
Qed.

Lemma ended_response_is_stable_witness :
  let ended := mkBridge [Some (error_event "late")] []
                        (mkConsumer [] [done_frame] Completed) in
  loop (mkBridge [] [Some (error_event "late")]
                 (mkConsumer [] [done_frame] Completed))
  = loop ended.
Proof.
  apply ended_response_is_stable.
  - eapply steps_cons; [apply step_put | apply steps_refl].
  - reflexivity.
Defined.

Lemma step_work b b1 : step b b1 -> b1 <> b -> work b = S (work b1).
Proof.
  intros Hs Hn. destruct Hs as [x p q c | p c Hp | x p q c Hp];
    unfold work; cbn [pending event_queue length].
  - rewrite length_app. cbn [length]. lia.
  - contradiction Hn. reflexivity.
  - lia.
Qed.

Lemma step_idle_or_work b b1 : step b b1 -> b1 = b \/ b1 <> b.
Proof.
  intros Hs. destruct Hs as [x p q c | p c Hp | x p q c Hp].
  - right. intros E. injection E as E _. apply (f_equal (@length _)) in E.
    cbn [length] in E. lia.
  - left. reflexivity.
  - right. intros E. injection E as E _. apply (f_equal (@length _)) in E.
    cbn [length] in E. lia.
Qed.

Lemma run_uses_work n b b' : run n b b' -> work b = n + work b'.
Proof.
  induction 1 as [b | n b b' _ _ IH | n b b1 b' Hs N _ IH].
  - reflexivity.
  - exact IH.
  - rewrite (step_work Hs N), IH. reflexivity.
Qed.

(** X15: every run of the bridge is an interleaving of idle polls, which
    change nothing, and of steps that each use up one unit of the work
    left, two units for each item the worker has still to put and one for
    each item in the queue: from a state with work [w] no run makes more
    than [w] steps that are not idle polls. *)
Theorem bounded_work b b' :
  steps b b' ->
  (exists n, run n b b') /\
  (forall n, run n b b' -> work b = n + work b' /\ n <= work b).
Proof.
  intros H. split.
  - induction H as [b | b b1 b2 Hs _ [n Hr]].
    + exists 0. constructor.
    + destruct (step_idle_or_work Hs) as [E | N].
      * subst b1. exists n. eapply run_idle; [exact Hs | exact Hr].
      * exists (S n). eapply run_work; [exact Hs | exact N | exact Hr].
  - intros n Hr. pose proof (run_uses_work Hr). lia.
Qed.

Lemma bounded_work_witness :
  exists n,
    run n (mkBridge [None] [] consumer_start)
          (mkBridge [] [None] consumer_start).
Proof.
  apply (@bounded_work (mkBridge [None] [] consumer_start)
                       (mkBridge [] [None] consumer_start)).
  eapply steps_cons; [apply step_put | apply steps_refl].
Defined.

(** ** Failures of the transport *)

(** X16: when the payload of an outward event cannot be serialized, the
    response is cut there: an ended response consists of the frames of the
    events before it, one [error] frame with the text of the exception of
    [json.dumps], and the final frame; the events after it are never taken
    from the queue. *)
Theorem transport_failure_cuts_response
        remote query b before e after fs x :
  outward_events remote query = before ++ e :: after ->
  Forall2 (fun e f => frame_of e = Ok f) before fs ->
  json_dumps (data e) = Raise x ->
  request_reaches remote query b ->
  finished (loop b) = true ->
  phase_of (loop b) = Aborted /\
  received (loop b) = before ++ [e] /\
  exists error_data,
    json_dumps [("message", JVal (VStr (str_exn x)))] = Ok error_data /\
    frames (loop b) = fs ++ [sse_frame "error" error_data; done_frame].
Proof.
  intros Ho Hfs Hx Hr F. unfold request_reaches in Hr.
  rewrite (finished_is_transport Hr F). unfold transport.
  rewrite run_sync_generator_events, Ho, map_app, <- app_assoc, fold_left_app.
  rewrite (transport_prefix consumer_start eq_refl Hfs).
  cbn [map app fold_left received frames consumer_start].
  assert (J : exists d,
             json_dumps [("message", JVal (VStr (str_exn x)))] = Ok d)
    by (eexists; reflexivity).
  destruct J as [d J].
  assert (Hd : error_frame x = Ok (sse_frame "error" d))
    by (unfold error_frame; now rewrite J).
  assert (C : consume (mkConsumer before fs Polling) (Some e)
              = mkConsumer (before ++ [e])
                           (fs ++ [sse_frame "error" d; done_frame])
                           Aborted).
  { unfold consume. cbn [phase_of received frames].
    now rewrite Hx, (json_dumps_raises _ Hx), Hd. }
  rewrite C, fold_consume_finished by reflexivity.
  cbn [phase_of received frames]. repeat split.
  exists d. split; [exact J | reflexivity].
Qed.

Lemma transport_failure_cuts_response_witness :
  exists b,
    request_reaches remote_unserializable "ping" b /\
    phase_of (loop b) = Aborted.
Proof.
  destruct (@can_reach_transport
              (run_sync_generator remote_unserializable "ping")
              (bridge_start (run_sync_generator remote_unserializable "ping"))
              (reach_start _)) as [b [Hs Hl]].
  assert (R : request_reaches remote_unserializable "ping" b).
  { exact (reachable_steps (reach_start _) Hs). }
  assert (F : finished (loop b) = true).
  { rewrite Hl. reflexivity. }
  exists b. split; [exact R|].
  eapply (@transport_failure_cuts_response
            remote_unserializable "ping" b
            [conversation_created "conv_1";
             mkSse "text_delta" [("delta", JVal (VStr "pong"))]]
            (mkSse "action_started"
                   [("action_id", JVal (VStr "a1"));
                    ("status", JVal opaque_status);
                    ("previous_action_id", JVal VNone)])
            [mkSse "text_done" [("text", JVal (VStr "pong"))];
             conversation_deleted "conv_1"]
            _ (TypeError_not_serializable opaque_status)).
  - reflexivity.
  - repeat (econstructor; [reflexivity|]). constructor.
  - reflexivity.
  - exact R.
  - exact F.
Defined.

(** ** The wire format *)

















(** ** Where a serialization failure can come from *)

Lemma normalized_from events ending s :
  In s (fst (normalized events ending)) ->
  exists ev, In ev events /\ process_stream_event ev = Ok (Some s).
Proof.
  induction events as [|ev rest IH]; simpl; [tauto|].
  destruct (process_stream_event ev) as [[s'|]|e] eqn:E; simpl.
  - destruct (normalized rest ending) as [l r]. simpl in *.
    intros [<- | H].
    + exists ev. auto.
    + destruct (IH H) as [ev' [Hin Hp]]. exists ev'. auto.
  - intros H. destruct (IH H) as [ev' [Hin Hp]]. exists ev'. auto.
  - tauto.
Qed.

Lemma fold_aborted items c :
  phase_of c = Polling ->
  phase_of (fold_left consume items c) = Aborted ->
  exists e x, In (Some e) items /\ json_dumps (data e) = Raise x.
Proof.
  revert c. induction items as [|i items IH]; intros c Hp Ha.
  - simpl in Ha. congruence.
  - cbn [fold_left] in Ha. destruct i as [e|].
    + destruct (json_dumps (data e)) as [d|x] eqn:E.
      * assert (C : phase_of (consume c (Some e)) = Polling).
        { unfold consume. now rewrite Hp, E. }
        destruct (IH _ C Ha) as [e' [x' [Hin Hx]]].
        exists e', x'. split; [right; exact Hin | exact Hx].
      * exists e, x. split; [left; reflexivity | exact E].
    + assert (C : consume c None
                  = mkConsumer (received c) (frames c ++ [done_frame])
                               Completed).
      { unfold consume. now rewrite Hp. }
      rewrite C, fold_consume_finished in Ha by reflexivity.
      discriminate Ha.
Qed.

(** X19: the events the backend builds itself, [conversation_created],
    [conversation_deleted] and its [error] events, always serialize: when a
    response is cut by a serialization failure, the payload that failed is
    that of an outward event the normalizer made from a raw event of the
    stream. *)
Theorem serialization_fails_only_on_upstream_payloads remote query b :
  request_reaches remote query b ->
  phase_of (loop b) = Aborted ->
  exists conversation st ev e x,
    remote_create remote = Ok conversation /\
    remote_responses remote conversation query = Ok st /\
    In ev (stream_events st) /\
    process_stream_event ev = Ok (Some e) /\
    json_dumps (data e) = Raise x.
Proof.
  intros Hr Ha. unfold request_reaches in Hr.
  destruct (reachable_invariant Hr) as [taken [Hi Hl]].
  rewrite Hl in Ha.
  destruct (fold_aborted taken consumer_start eq_refl Ha) as [e [x [Hin Hx]]].
  assert (Ho : In e (outward_events remote query)).
  { apply in_items_event. rewrite Hi. apply in_or_app. auto. }
  assert (K : forall failure, In e (caught failure) -> False).
  { intros failure H. unfold caught in H.
    destruct failure as [e0|]; [|exact H].
    destruct (is_exception e0); [|exact H].
    destruct H as [<- | []]. discriminate Hx. }
  destruct (remote_create remote) as [conversation|ex] eqn:Hc.
  - rewrite (outward_events_created _ _ Hc) in Ho.
    destruct Ho as [<- | Ho]; [discriminate Hx|].
    apply in_app_or in Ho. destruct Ho as [Ho | Ho].
    + unfold streamed in Ho.
      destruct (remote_responses remote conversation query) as [st|ex] eqn:Hs.
      * pose proof (@normalized_from (stream_events st) (stream_end st) e)
          as N.
        destruct (normalized (stream_events st) (stream_end st)) as [l r].
        cbn [fst] in N. apply in_app_or in Ho. destruct Ho as [Ho | Ho].
        -- destruct (N Ho) as [ev [Hev Hp]].
           exists conversation, st, ev, e, x. auto.
        -- destruct (K _ Ho).
      * destruct (K _ Ho).
    + unfold cleanup_events in Ho.
      destruct (remote_delete remote conversation); simpl in Ho; [|tauto].
      destruct Ho as [<- | []]. discriminate Hx.
  - rewrite (outward_events_not_created _ _ Hc) in Ho.
    destruct (K _ Ho).
Qed.

Lemma serialization_fails_only_on_upstream_payloads_witness :
  exists b conversation st ev e x,
    steps (bridge_start (run_sync_generator remote_unserializable "ping")) b /\
    remote_create remote_unserializable = Ok conversation /\
    remote_responses remote_unserializable conversation "ping" = Ok st /\
    In ev (stream_events st) /\
    process_stream_event ev = Ok (Some e) /\
    json_dumps (data e) = Raise x.
Proof.
  destruct (@can_reach_transport
              (run_sync_generator remote_unserializable "ping")
              (bridge_start (run_sync_generator remote_unserializable "ping"))
              (reach_start _)) as [b [Hs Hl]].
  assert (R : request_reaches remote_unserializable "ping" b).
  { exact (reachable_steps (reach_start _) Hs). }
  assert (A : phase_of (loop b) = Aborted).
  { rewrite Hl. reflexivity. }
  destruct (@serialization_fails_only_on_upstream_payloads
              remote_unserializable "ping" b R A)
    as [conversation [st [ev [e [x H]]]]].
  exists b, conversation, st, ev, e, x. split; [exact Hs | exact H].
Defined.
